(** * Ref binding of the Aurelia runtime: lifecycle of [$bind] / [$unbind]

    Shallow embedding of [packages/runtime/src/binding/ref.ts].

    A [Ref] binding stores its [target] into the location denoted by its
    source expression when it is bound to a scope and clears that location
    again when it is unbound, provided the location still holds the target.
    The class keeps a lifecycle bit mask in [$state] and the current scope
    in [$scope].

    Rocq identifiers cannot start with a dollar sign: [$state], [$scope],
    [$bind], [$unbind], [$nextBindable] and [$prevBindable] are written with
    a leading underscore. *)

From Stdlib Require Import ZArith List String Bool Lia.
From stdpp Require Import base option gmap strings.
Import ListNotations.

Local Open Scope Z_scope.

(** ** JavaScript values *)

(** The values the binding handles: [undefined], [null], primitive numbers
    and object references compared by identity. *)
Inductive value : Type :=
| VUndefined
| VNull
| VNum (n : Z)
| VObj (id : nat).

#[global] Instance value_eq_dec : EqDecision value.
Proof. solve_decision. Defined.

(** [a === b]: no conversion; objects are equal when they are the same
    object. *)
Definition strict_eq (a b : value) : bool := bool_decide (a = b).

(** [a !== b] *)
Definition strict_neq (a b : value) : bool := negb (strict_eq a b).

(** ** 32-bit integer operators

    [|], [&] and [~] convert their operands to signed 32-bit integers. *)

Definition toInt32 (x : Z) : Z := (x + 2 ^ 31) mod 2 ^ 32 - 2 ^ 31.

(** The bitwise combination of two 32-bit operands is again a 32-bit
    integer, so only the operands are wrapped. *)
Definition js_or (a b : Z) : Z := Z.lor (toInt32 a) (toInt32 b).
Definition js_and (a b : Z) : Z := Z.land (toInt32 a) (toInt32 b).
Definition js_not (a : Z) : Z := Z.lnot (toInt32 a).

(** A number used as a condition is true unless it is zero. *)
Definition truthy (x : Z) : bool := negb (x =? 0).

(** ** Lifecycle state *)

Module LifecycleState.
(** Modelled from the spec: [lifecycle-state.ts] is not among the sources.
    Section 4.1 of the specification gives the bit mask as
    [none=0, isBinding=1, isBound=2, isUnbinding=4]. *)
Definition none : Z := 0.
Definition isBinding : Z := 1.
Definition isBound : Z := 2.
Definition isUnbinding : Z := 4.
End LifecycleState.

(** [s & flag] used as a condition *)
Definition has_flag (s flag : Z) : bool := truthy (js_and s flag).

(** ** The collaborators of a binding *)

(** [BindingFlags] is a bit set the binding only passes on. *)
Definition BindingFlags : Type := Z.

(** Scopes and service locators are objects; the binding only stores and
    compares their identity. *)
Definition IScope : Type := nat.
Definition IServiceLocator : Type := nat.

(** How a call into an expression ends: it returns, or it throws a value. *)
Inductive completion (A : Type) : Type :=
| Normal (a : A)
| Throw (x : value).
Arguments Normal {A} a.
Arguments Throw {A} x.

(** The fields of the binding an expression hook can read through the
    [this] argument it is given. *)
Record BindingView : Type := mkView {
  view_state : Z;
  view_scope : value;
  view_target : value;
  view_locator : IServiceLocator }.

(** Calls from the binding into its source expression, with their
    arguments. *)
Inductive call : Type :=
| CallEvaluate (flags : BindingFlags) (scope : value) (locator : IServiceLocator)
| CallAssign (flags : BindingFlags) (scope : value) (locator : IServiceLocator)
    (v : value)
| CallBind (flags : BindingFlags) (scope : value) (binding : BindingView)
| CallUnbind (flags : BindingFlags) (scope : value) (binding : BindingView).

(** The scope a call is given. *)
Definition call_scope (c : call) : value :=
  match c with
  | CallEvaluate _ sc _ | CallAssign _ sc _ _
  | CallBind _ sc _ | CallUnbind _ sc _ => sc
  end.

(** What an execution does, in order: writes to [$state] and [$scope], and
    calls into the expression together with how they end. *)
Inductive event : Type :=
| SetState (s : Z)
| SetScope (v : value)
| Enter (c : call)
| Returned (v : value)
| Threw (x : value).

#[global] Instance BindingView_eq_dec : EqDecision BindingView.
Proof. solve_decision. Defined.
#[global] Instance call_eq_dec : EqDecision call.
Proof. solve_decision. Defined.
#[global] Instance event_eq_dec : EqDecision event.
Proof. solve_decision. Defined.

Section Runtime.

(** The mutable world outside the binding: binding contexts, observers,
    whatever the expression reads and writes. *)
Context {W : Type}.

(** Modelled from the spec: [ast.ts] is not among the sources. Section 3
    gives the contract of an expression node: [evaluate(flags, scope,
    locator)], [assign(flags, scope, locator, value)] and, for nodes
    that need setup, [bind] and [unbind]; [hasBind] and [hasUnbind] tell
    whether the node has these hooks. The methods act on the world and
    may throw; they do not write the fields of the binding. *)
Record IsBindingBehavior : Type := mkExpr {
  evaluate : BindingFlags -> value -> IServiceLocator -> W ->
             completion value * W;
  assign : BindingFlags -> value -> IServiceLocator -> value -> W ->
           completion value * W;
  hasBind : bool;
  bind : BindingFlags -> value -> BindingView -> W -> completion unit * W;
  hasUnbind : bool;
  unbind : BindingFlags -> value -> BindingView -> W -> completion unit * W }.

(** The fields of [class Ref]. *)
Record Ref : Type := mkRef {
  _nextBindable : value;
  _prevBindable : value;
  _state : Z;
  _scope : value;
  sourceExpression : IsBindingBehavior;
  target : value;
  locator : IServiceLocator }.

(** [new Ref(sourceExpression, target, locator)]: the two list links are
    initialised to [null], [$state] to [none]; [$scope] is declared
    without an initialiser, so reading it gives [undefined]. *)
Definition new_Ref (e : IsBindingBehavior) (t : value) (l : IServiceLocator)
  : Ref :=
  {| _nextBindable := VNull; _prevBindable := VNull;
     _state := LifecycleState.none; _scope := VUndefined;
     sourceExpression := e; target := t; locator := l |}.

Definition view_of (r : Ref) : BindingView :=
  mkView (_state r) (_scope r) (target r) (locator r).

(** The binding object, the world and the record of what has happened. *)
Record machine : Type := mkMachine {
  this : Ref;
  world : W;
  log : list event }.

(** A method body: it runs on a machine, ends normally or by a throw, and
    leaves a machine behind either way. *)
Definition M (A : Type) : Type := machine -> completion A * machine.

#[global] Instance M_ret : MRet M := fun A a m => (Normal a, m).

#[global] Instance M_bind : MBind M := fun A B f c m =>
  match c m with
  | (Normal a, m') => f a m'
  | (Throw x, m') => (Throw x, m')
  end.

Definition read {A : Type} (f : Ref -> A) : M A :=
  fun m => (Normal (f (this m)), m).

Definition write_state (s : Z) : M unit :=
  fun m =>
    let r := this m in
    (Normal tt,
     mkMachine (mkRef (_nextBindable r) (_prevBindable r) s (_scope r)
                      (sourceExpression r) (target r) (locator r))
               (world m) (log m ++ [SetState s])).

Definition write_scope (v : value) : M unit :=
  fun m =>
    let r := this m in
    (Normal tt,
     mkMachine (mkRef (_nextBindable r) (_prevBindable r) (_state r) v
                      (sourceExpression r) (target r) (locator r))
               (world m) (log m ++ [SetScope v])).

(** [this.$state |= c] and [this.$state &= c] *)
Definition or_state (c : Z) : M unit :=
  s ← read _state; write_state (js_or s c).

Definition and_state (c : Z) : M unit :=
  s ← read _state; write_state (js_and s c).

(** A call into the expression: it runs on the world; what it throws is
    thrown on. *)
Definition invoke {A : Type} (c : call) (as_value : A -> value)
    (f : W -> completion A * W) : M A :=
  fun m =>
    match f (world m) with
    | (Normal a, w') =>
        (Normal a,
         mkMachine (this m) w' (log m ++ [Enter c; Returned (as_value a)]))
    | (Throw x, w') =>
        (Throw x, mkMachine (this m) w' (log m ++ [Enter c; Threw x]))
    end.

(** [this.sourceExpression.evaluate(flags, this.$scope, this.locator)] *)
Definition call_evaluate (flags : BindingFlags) : M value :=
  e ← read sourceExpression; sc ← read _scope; l ← read locator;
  invoke (CallEvaluate flags sc l) id (evaluate e flags sc l).

(** [this.sourceExpression.assign(flags, this.$scope, this.locator, v)] *)
Definition call_assign (flags : BindingFlags) (v : value) : M value :=
  e ← read sourceExpression; sc ← read _scope; l ← read locator;
  invoke (CallAssign flags sc l v) id (assign e flags sc l v).

(** [$unbind(flags)] *)
Definition _unbind (flags : BindingFlags) : M unit :=
  s ← read _state;
  if negb (has_flag s LifecycleState.isBound) then mret tt
  else
    or_state LifecycleState.isUnbinding;;
    v ← call_evaluate flags;
    t ← read target;
    (if strict_eq v t
     then _ ← call_assign flags VNull; mret tt
     else mret tt);;
    sourceExpression ← read sourceExpression;
    (if hasUnbind sourceExpression
     then sc ← read _scope; b ← read view_of;
          invoke (CallUnbind flags sc b) (fun _ => VUndefined)
                 (unbind sourceExpression flags sc b)
     else mret tt);;
    write_scope VNull;;
    and_state
      (js_not (js_or LifecycleState.isBound LifecycleState.isUnbinding)).

(** [$bind(flags, scope)] for whatever value it is given as [scope]: the
    method stores its argument unchecked, so [null] and [undefined] are
    stored like a scope object. [proceed] is the body after the first check;
    the early [return] is the branch that does not run it. *)
Definition _bind_value (flags : BindingFlags) (scope : value) : M unit :=
  let proceed : M unit :=
    or_state LifecycleState.isBinding;;
    write_scope scope;;
    sourceExpression ← read sourceExpression;
    (if hasBind sourceExpression
     then b ← read view_of;
          invoke (CallBind flags scope b) (fun _ => VUndefined)
                 (bind sourceExpression flags scope b)
     else mret tt);;
    t ← read target;
    _ ← call_assign flags t;
    or_state LifecycleState.isBound;;
    and_state (js_not LifecycleState.isBinding) in
  s ← read _state;
  if has_flag s LifecycleState.isBound then
    sc ← read _scope;
    if strict_eq sc scope then mret tt
    else _unbind flags;; proceed
  else proceed.

(** [$bind(flags, scope)] given a scope object, as the type [IScope] of the
    parameter declares. *)
Definition _bind (flags : BindingFlags) (scope : IScope) : M unit :=
  _bind_value flags (VObj scope).

(** [observeProperty(obj, propertyName)] and
    [handleChange(newValue, previousValue, flags)] have empty bodies. *)
Definition observeProperty (obj propertyName : value) : M unit := mret tt.

Definition handleChange (newValue previousValue : value)
    (flags : BindingFlags) : M unit := mret tt.

(** ** Vocabulary of the properties *)

(** The binding is bound, and bound to this scope. *)
Definition bound (r : Ref) : bool :=
  has_flag (_state r) LifecycleState.isBound.

Definition bound_to (scope : IScope) (r : Ref) : Prop :=
  bound r = true /\ _scope r = VObj scope.

(** A binding that was never bound, or whose last completed operation was
    [$unbind]. *)
Inductive unbound_history : Ref -> Prop :=
| never_bound e t l : unbound_history (new_Ref e t l)
| just_unbound flags m m' :
    _unbind flags m = (Normal tt, m') -> unbound_history (this m').

(** [v != null]: neither [null] nor [undefined]. *)
Definition loose_neq_null (v : value) : bool :=
  match v with
  | VNull | VUndefined => false
  | _ => true
  end.

(** A scope argument that is a scope object. *)
Definition scope_object (v : value) : Prop := loose_neq_null v = true.

(** The states of a binding object after any number of completed [$bind]
    and [$unbind] calls, where every value given to [$bind] as scope
    satisfies [ok]; the world may change between two calls. *)
Inductive reachable_with (ok : value -> Prop) : Ref -> Prop :=
| reach_new e t l : reachable_with ok (new_Ref e t l)
| reach_bind r flags scope w lg m' :
    reachable_with ok r ->
    ok scope ->
    _bind_value flags scope (mkMachine r w lg) = (Normal tt, m') ->
    reachable_with ok (this m')
| reach_unbind r flags w lg m' :
    reachable_with ok r ->
    _unbind flags (mkMachine r w lg) = (Normal tt, m') ->
    reachable_with ok (this m').

(** The same with no condition on the values given to [$bind]. *)
Definition reachable : Ref -> Prop := reachable_with (fun _ => True).

(** [$bind(flags, scope)] started on [m] gets past its first check and
    reaches the line that sets [isBinding] on [m0]: either the binding was
    not bound, or it was bound to another scope and the [$unbind] the method
    calls has returned. *)
Definition enters (flags : BindingFlags) (scope : IScope) (m m0 : machine)
  : Prop :=
  (bound (this m) = false /\ m0 = m) \/
  (bound (this m) = true /\ _scope (this m) <> VObj scope /\
   _unbind flags m = (Normal tt, m0)).

(** What the bind hook is shown of the binding: [isBinding] is already set
    and [$scope] already holds the new scope. *)
Definition binding_view (scope : IScope) (r : Ref) : BindingView :=
  mkView (js_or (_state r) LifecycleState.isBinding) (VObj scope)
         (target r) (locator r).

(** The expression work of [$bind] on [m0], the bind hook if there is one
    and then the assignment of the target, ends by throwing [x]. *)
Definition bind_work_throws (flags : BindingFlags) (scope : IScope)
    (m0 : machine) (x : value) : Prop :=
  let r := this m0 in
  let e := sourceExpression r in
  let assigning w :=
    fst (assign e flags (VObj scope) (locator r) (target r) w) = Throw x in
  if hasBind e then
    match bind e flags (VObj scope) (binding_view scope r) (world m0) with
    | (Throw y, _) => y = x
    | (Normal _, w1) => assigning w1
    end
  else assigning (world m0).

(** The value of [$state] after each event of a stretch of the log that
    starts with [$state] at [s]. *)
Fixpoint states_after (s : Z) (evs : list event) : list Z :=
  match evs with
  | [] => []
  | SetState s' :: evs' => s' :: states_after s' evs'
  | _ :: evs' => s :: states_after s evs'
  end.

(** The calls of a stretch of the log, each with the [$state] and the
    [$scope] in force when it is made. *)
Fixpoint calls_under (s : Z) (sc : value) (evs : list event)
  : list (call * Z * value) :=
  match evs with
  | [] => []
  | SetState s' :: evs' => calls_under s' sc evs'
  | SetScope sc' :: evs' => calls_under s sc' evs'
  | Enter c :: evs' => (c, s, sc) :: calls_under s sc evs'
  | _ :: evs' => calls_under s sc evs'
  end.

(** Two states of the binding object that differ at most in [$state] and
    [$scope]. *)
Definition same_fields (r r' : Ref) : Prop :=
  sourceExpression r' = sourceExpression r /\ target r' = target r /\
  locator r' = locator r /\ _nextBindable r' = _nextBindable r /\
  _prevBindable r' = _prevBindable r.

(** The assignments of a stretch of the log, in order: the scope and the
    value each [assign] is called with. *)
Fixpoint assigned (evs : list event) : list (value * value) :=
  match evs with
  | [] => []
  | Enter (CallAssign _ sc _ v) :: evs' => (sc, v) :: assigned evs'
  | _ :: evs' => assigned evs'
  end.

(** What the unbind hook is shown of the binding: [isUnbinding] is already
    set and [$scope] still holds the scope. *)
Definition unbinding_view (r : Ref) : BindingView :=
  mkView (js_or (_state r) LifecycleState.isUnbinding) (_scope r)
         (target r) (locator r).

(** The expression currently denotes [v] in scope [sc]. *)
Definition evaluates_to (e : IsBindingBehavior) (sc : value) (w : W)
    (v : value) : Prop :=
  forall flags l, fst (evaluate e flags sc l w) = Normal v.

(** An assignable expression: what was assigned is what is read. *)
Definition reads_back (e : IsBindingBehavior) : Prop :=
  forall flags sc l v w r w',
    assign e flags sc l v w = (Normal r, w') -> evaluates_to e sc w' v.

(** An expression that denotes a storage location: moreover, neither reading
    it nor its unbind hook changes what it holds. *)
Record location (e : IsBindingBehavior) : Prop := {
  location_reads_back : reads_back e;
  location_evaluate : forall sc v w flags l,
    evaluates_to e sc w v ->
    evaluates_to e sc (snd (evaluate e flags sc l w)) v;
  location_unbind : forall sc v w flags b,
    evaluates_to e sc w v ->
    evaluates_to e sc (snd (unbind e flags sc b w)) v }.

End Runtime.

Arguments IsBindingBehavior W : clear implicits.
Arguments Ref W : clear implicits.
Arguments machine W : clear implicits.

(** ** A concrete world and concrete expressions *)

Module Sample.

(** Modelled from the spec: [ast.ts] is not among the sources. Section 2
    describes an expression as a property access that is evaluated against
    a scope and can write a value back. The world is a store of the
    properties of the scope objects; reading a property of something that
    is not an object throws. *)
Abbreviation store := (gmap (nat * string) value).

Inductive error : Type := TypeError | NotAssignable | HookFailed.

Definition thrown (e : error) : value :=
  VNum (match e with TypeError => 1 | NotAssignable => 2 | HookFailed => 3 end).

Definition no_hook (f : BindingFlags) (sc : value) (b : BindingView)
    (h : store) : completion unit * store := (Normal tt, h).

Definition AccessScope (name : string) : IsBindingBehavior store :=
  {| evaluate := fun _ sc _ h =>
       match sc with
       | VObj s => (Normal (default VUndefined (h !! (s, name))), h)
       | _ => (Throw (thrown TypeError), h)
       end;
     assign := fun _ sc _ v h =>
       match sc with
       | VObj s => (Normal v, <[(s, name) := v]> h)
       | _ => (Throw (thrown TypeError), h)
       end;
     hasBind := false; bind := no_hook;
     hasUnbind := false; unbind := no_hook |}.

(** The same location behind an expression with both hooks: each hook
    counts its calls in a property of the scope it is given. *)
Definition count_in (name : string) (f : BindingFlags) (sc : value)
    (b : BindingView) (h : store) : completion unit * store :=
  match sc with
  | VObj s =>
      (Normal tt,
       <[(s, name) :=
           VNum (match h !! (s, name) with Some (VNum n) => n + 1 | _ => 1 end)]> h)
  | _ => (Throw (thrown TypeError), h)
  end.

Definition Hooked (name : string) : IsBindingBehavior store :=
  {| evaluate := evaluate (AccessScope name);
     assign := assign (AccessScope name);
     hasBind := true; bind := count_in "binds";
     hasUnbind := true; unbind := count_in "unbinds" |}.

(** Expressions that fail: one cannot be assigned to, one cannot be
    evaluated, one has a bind hook that throws. *)
Definition ReadOnly (name : string) : IsBindingBehavior store :=
  {| evaluate := evaluate (AccessScope name);
     assign := fun _ _ _ _ h => (Throw (thrown NotAssignable), h);
     hasBind := false; bind := no_hook;
     hasUnbind := false; unbind := no_hook |}.

Definition Unreadable (name : string) : IsBindingBehavior store :=
  {| evaluate := fun _ _ _ h => (Throw (thrown TypeError), h);
     assign := assign (AccessScope name);
     hasBind := false; bind := no_hook;
     hasUnbind := false; unbind := no_hook |}.

Definition FailingHook (name : string) : IsBindingBehavior store :=
  {| evaluate := evaluate (AccessScope name);
     assign := assign (AccessScope name);
     hasBind := true;
     bind := fun _ _ _ h => (Throw (thrown HookFailed), h);
     hasUnbind := false; unbind := no_hook |}.

(** An expression that does not read the scope it is given: one
    property of one fixed object. It can be bound to any value. *)
Definition Global (name : string) : IsBindingBehavior store :=
  {| evaluate := fun _ _ _ h =>
       (Normal (default VUndefined (h !! (0%nat, name))), h);
     assign := fun _ _ _ v h => (Normal v, <[(0%nat, name) := v]> h);
     hasBind := false; bind := no_hook;
     hasUnbind := false; unbind := no_hook |}.

(** Start a binding on an empty world and an empty log. *)
Definition start (r : Ref store) : machine store := mkMachine r ∅ [].

(** Carry on with another binding object in the world the first run left. *)
Definition switch (r : Ref store) (m : machine store) : machine store :=
  mkMachine r (world m) (log m).

(** Two scopes, two targets, and bindings on the property [el]. *)
Definition S7 : IScope := 7%nat.
Definition S8 : IScope := 8%nat.
Definition T1 : value := VObj 11.
Definition T2 : value := VObj 12.

Definition B1 : Ref store := new_Ref (AccessScope "el") T1 0%nat.
Definition B2 : Ref store := new_Ref (AccessScope "el") T2 0%nat.

(** [B1] bound to [S7]; then [B2] bound to [S7] as well; then [B1] looked
    at again in the world [B2] has left. *)
Definition bound1 : machine store := snd (_bind 0 S7 (start B1)).
Definition bound12 : machine store := snd (_bind 0 S7 (switch B2 bound1)).
Definition back_to_1 : machine store := switch (this bound1) bound12.

(** [B1] unbound again. *)
Definition unbound1 : machine store := snd (_unbind 0 bound1).

(** A binding on an expression with hooks, bound to [S7]. *)
Definition Bh : Ref store := new_Ref (Hooked "el") T1 0%nat.
Definition boundh : machine store := snd (_bind 0 S7 (start Bh)).

(** A binding on an expression that cannot be assigned. *)
Definition Br : Ref store := new_Ref (ReadOnly "el") T1 0%nat.

(** A binding on an expression that ignores the scope, bound with [null]
    given as scope. *)
Definition Bg : Ref store := new_Ref (Global "el") T1 0%nat.
Definition bound_null : machine store := snd (_bind_value 0 VNull (start Bg)).

(** A binding on an expression that cannot be evaluated, bound to [S7]. *)
Definition Bx : Ref store := new_Ref (Unreadable "el") T1 0%nat.
Definition boundx : machine store := snd (_bind 0 S7 (start Bx)).

End Sample.

(** * Properties *)

(** ** Bit-level facts about the state operations *)

Lemma toInt32_range x : - 2 ^ 31 <= toInt32 x < 2 ^ 31.
Proof.
  unfold toInt32.
  pose proof (Z.mod_pos_bound (x + 2 ^ 31) (2 ^ 32) ltac:(lia)). lia.
Qed.

Lemma toInt32_small x : - 2 ^ 31 <= x < 2 ^ 31 -> toInt32 x = x.
Proof.
  intros H. unfold toInt32. rewrite Z.mod_small; lia.
Qed.

Lemma toInt32_testbit x n :
  0 <= n < 32 -> Z.testbit (toInt32 x) n = Z.testbit x n.
Proof.
  intros Hn.
  rewrite <- (Z.mod_pow2_bits_low (toInt32 x) 32 n) by lia.
  rewrite <- (Z.mod_pow2_bits_low x 32 n) by lia.
  f_equal. unfold toInt32.
  replace ((x + 2 ^ 31) mod 2 ^ 32 - 2 ^ 31)
    with (x + (- ((x + 2 ^ 31) / 2 ^ 32)) * 2 ^ 32).
  - apply Z_mod_plus_full.
  - pose proof (Z.div_mod (x + 2 ^ 31) (2 ^ 32) ltac:(lia)). lia.
Qed.

Lemma land_pow2 a k :
  0 <= k -> Z.land a (2 ^ k) = if Z.testbit a k then 2 ^ k else 0.
Proof.
  intros Hk. apply Z.bits_inj'. intros n Hn.
  rewrite Z.land_spec, Z.pow2_bits_eqb by lia.
  destruct (Z.eqb_spec k n) as [->|Hne].
  - destruct (Z.testbit a n) eqn:E; simpl.
    + rewrite Z.pow2_bits_true; lia.
    + now rewrite Z.bits_0.
  - rewrite andb_false_r.
    destruct (Z.testbit a k).
    + rewrite Z.pow2_bits_false; lia.
    + now rewrite Z.bits_0.
Qed.

(** Testing one flag of the mask is reading one bit of the state. *)
Lemma has_flag_pow2 s k :
  0 <= k < 31 -> has_flag s (2 ^ k) = Z.testbit s k.
Proof.
  intros Hk. unfold has_flag, truthy, js_and.
  rewrite (toInt32_small (2 ^ k)).
  - rewrite land_pow2 by lia. rewrite toInt32_testbit by lia.
    destruct (Z.testbit s k); [|reflexivity].
    destruct (Z.eqb_spec (2 ^ k) 0); [|reflexivity].
    pose proof (Z.pow_pos_nonneg 2 k); lia.
  - split.
    + pose proof (Z.pow_pos_nonneg 2 k). lia.
    + apply Z.pow_lt_mono_r; lia.
Qed.

Lemma has_isBinding s : has_flag s LifecycleState.isBinding = Z.testbit s 0.
Proof. apply (has_flag_pow2 s 0). lia. Qed.

Lemma has_isBound s : has_flag s LifecycleState.isBound = Z.testbit s 1.
Proof. apply (has_flag_pow2 s 1). lia. Qed.

Lemma has_isUnbinding s : has_flag s LifecycleState.isUnbinding = Z.testbit s 2.
Proof. apply (has_flag_pow2 s 2). lia. Qed.

Lemma js_or_testbit s c n :
  0 <= n < 32 ->
  Z.testbit (js_or s c) n = Z.testbit s n || Z.testbit c n.
Proof.
  intros Hn. unfold js_or.
  now rewrite Z.lor_spec, !toInt32_testbit.
Qed.

Lemma js_and_not_testbit s c n :
  0 <= n < 32 ->
  Z.testbit (js_and s (js_not c)) n = Z.testbit s n && negb (Z.testbit c n).
Proof.
  intros Hn. unfold js_and, js_not.
  rewrite Z.land_spec, !toInt32_testbit by lia.
  rewrite Z.lnot_spec by lia.
  now rewrite toInt32_testbit.
Qed.

(** ** Running the two methods *)

(** Unfold the monad down to the calls into the expression. *)
Ltac run :=
  unfold _bind, _bind_value, _unbind, call_evaluate, call_assign, or_state, and_state,
    observeProperty, handleChange, invoke, write_state, write_scope, read,
    mbind, mret, M_bind, M_ret in *;
  cbn [this world log _state _scope sourceExpression target locator
       _nextBindable _prevBindable fst snd negb] in *.

(** Reduce the projections of explicit machines and bindings, and nothing
    else. *)
Ltac fields :=
  cbn [this world log _state _scope sourceExpression target locator
       _nextBindable _prevBindable fst snd negb].

Ltac fields_in H :=
  cbn [this world log _state _scope sourceExpression target locator
       _nextBindable _prevBindable fst snd negb] in H.

(** Read the lifecycle bits of a state built with [|] and [& ~]. *)
Ltac bits :=
  rewrite ?has_isBinding, ?has_isBound, ?has_isUnbinding;
  rewrite ?js_and_not_testbit, ?js_or_testbit by lia;
  rewrite ?js_and_not_testbit, ?js_or_testbit by lia;
  cbn [Z.testbit Pos.testbit Z.to_N Pos.pred_N negb
       LifecycleState.isBinding LifecycleState.isBound
       LifecycleState.isUnbinding];
  rewrite ?orb_true_r, ?andb_true_r, ?orb_false_r, ?andb_false_r.

Section Properties.

Context {W : Type}.

Implicit Types (m : machine W) (r : Ref W) (flags : BindingFlags)
  (scope : IScope).

Lemma strict_eq_true a b : strict_eq a b = true <-> a = b.
Proof. unfold strict_eq. apply bool_decide_eq_true. Qed.

Lemma strict_eq_false a b : strict_eq a b = false <-> a <> b.
Proof. unfold strict_eq. apply bool_decide_eq_false. Qed.

Lemma unbind_idle flags m :
  bound (this m) = false -> _unbind flags m = (Normal tt, m).
Proof. intros H. unfold bound in H. run. now rewrite H. Qed.

Lemma bind_again_idle flags scope m :
  bound_to scope (this m) -> _bind flags scope m = (Normal tt, m).
Proof.
  intros [Hb Hs]. unfold bound in Hb. run. rewrite Hb, Hs.
  now rewrite (proj2 (strict_eq_true _ _) eq_refl).
Qed.

(** The bits of the state a completed [$unbind] leaves. *)
Lemma cleared_bits s n :
  0 <= n < 32 ->
  Z.testbit
    (js_and s (js_not (js_or LifecycleState.isBound LifecycleState.isUnbinding)))
    n
  = Z.testbit s n && negb ((n =? 1) || (n =? 2)).
Proof.
  intros Hn. rewrite js_and_not_testbit, js_or_testbit by lia.
  f_equal. f_equal.
  change LifecycleState.isBound with (2 ^ 1).
  change LifecycleState.isUnbinding with (2 ^ 2).
  rewrite !Z.pow2_bits_eqb by lia.
  now rewrite (Z.eqb_sym 1 n), (Z.eqb_sym 2 n).
Qed.

Lemma unbind_normal_not_bound flags m m' :
  _unbind flags m = (Normal tt, m') -> bound (this m') = false.
Proof.
  intros H. destruct (bound (this m)) eqn:Hb.
  - unfold bound in *. run. rewrite Hb in H. cbn in H.
    repeat case_match; simplify_eq; cbn;
      rewrite has_isBound, cleared_bits by lia; apply andb_false_r.
  - rewrite (unbind_idle _ _ Hb) in H. now injection H as <-.
Qed.

(** Rebinding to another scope runs [$unbind] and then enters [$bind]
    again, now on an unbound binding. *)
Lemma bind_rebind flags scope m :
  bound (this m) = true -> _scope (this m) <> VObj scope ->
  _bind flags scope m =
  match _unbind flags m with
  | (Normal _, m1) => _bind flags scope m1
  | (Throw x, m1) => (Throw x, m1)
  end.
Proof.
  intros Hb Hs.
  destruct (_unbind flags m) as [[[]|x] m1] eqn:E.
  - pose proof (unbind_normal_not_bound _ _ _ E) as Hb1.
    unfold bound in Hb, Hb1.
    unfold _bind at 1. unfold _bind_value at 1.
    unfold mbind, M_bind, read at 1 2. cbn.
    rewrite Hb. cbn.
    rewrite (proj2 (strict_eq_false _ _) Hs), E.
    unfold _bind, _bind_value, mbind, M_bind, read at 5. cbn.
    now rewrite Hb1.
  - unfold bound in Hb.
    unfold _bind, _bind_value. unfold mbind, M_bind, read at 1 2. cbn.
    rewrite Hb. cbn.
    now rewrite (proj2 (strict_eq_false _ _) Hs), E.
Qed.

Lemma unbound_history_not_bound r : unbound_history r -> bound r = false.
Proof.
  intros [e t l|flags m m' H].
  - reflexivity.
  - exact (unbind_normal_not_bound _ _ _ H).
Qed.

(** Past its first check [$bind] behaves as on the unbound binding it has
    reached. *)
Lemma bind_enters flags scope m m0 :
  enters flags scope m m0 ->
  _bind flags scope m = _bind flags scope m0 /\ bound (this m0) = false.
Proof.
  intros [[Hb ->]|(Hb & Hs & Hu)].
  - now split.
  - split.
    + now rewrite (bind_rebind _ _ _ Hb Hs), Hu.
    + exact (unbind_normal_not_bound _ _ _ Hu).
Qed.

(** From the line that sets [isBinding] on: the state written first has
    [isBinding], every later state has [isBinding] or [isBound], every call
    is made under [isBinding], and a normal return leaves [isBound] set and
    [isBinding] clear. *)
Lemma bind_unbound_timeline flags scope m o m' :
  bound (this m) = false ->
  _bind flags scope m = (o, m') ->
  exists s1 evs,
    log m' = log m ++ SetState s1 :: evs /\
    has_flag s1 LifecycleState.isBinding = true /\
    Forall (fun s => has_flag s LifecycleState.isBinding
                     || has_flag s LifecycleState.isBound = true)
           (states_after s1 evs) /\
    Forall (fun '(_, s, _) => has_flag s LifecycleState.isBinding = true)
           (calls_under s1 (_scope (this m)) evs) /\
    (o = Normal tt ->
     bound (this m') = true /\
     has_flag (_state (this m')) LifecycleState.isBinding = false).
Proof.
  intros Hb H. unfold bound in *. run. rewrite Hb in H.
  repeat case_match; simplify_eq; cbn in *.
  all: eexists _, _; split; [rewrite <- ?app_assoc; cbn; reflexivity|].
  all: cbn.
  all: repeat first [apply Forall_cons | apply Forall_nil | split];
    try discriminate; try intros _; bits; reflexivity.
Qed.

(** A throw from the bind hook or from the assignment ends [$bind] on an
    unbound binding with that throw, after [$scope] and [isBinding] were
    set and before [isBound] is. *)
Lemma bind_unbound_throw flags scope m x :
  bound (this m) = false ->
  bind_work_throws flags scope m x ->
  exists m',
    _bind flags scope m = (Throw x, m') /\
    _scope (this m') = VObj scope /\
    has_flag (_state (this m')) LifecycleState.isBinding = true /\
    bound (this m') = false.
Proof.
  intros Hb H. unfold bound, bind_work_throws, binding_view in *.
  run. unfold view_of. cbn. rewrite Hb. cbn.
  rewrite has_isBound in Hb.
  destruct (hasBind _).
  - destruct (bind _ _ _ _ _) as [[[]|y] w1].
    + destruct (assign _ _ _ _ _ _) as [[v|y] w2]; cbn in H; simplify_eq.
      eexists; split; [reflexivity|]; cbn. repeat split; bits; auto.
    + subst y.
      eexists; split; [reflexivity|]; cbn. repeat split; bits; auto.
  - destruct (assign _ _ _ _ _ _) as [[v|y] w2]; cbn in H; simplify_eq.
    eexists; split; [reflexivity|]; cbn. repeat split; bits; auto.
Qed.

(** C2. A binding that is bound to a scope and is bound again to the same
    scope object is left as it is: [$bind] returns at once, [$state],
    [$scope] and the world (so the value the expression was assigned) are
    unchanged, and nothing is added to the log, so [assign] is not run a
    second time. *)
Theorem bind_same_scope_noop flags scope m :
  bound_to scope (this m) -> _bind flags scope m = (Normal tt, m).
Proof. apply bind_again_idle. Qed.

(** C3. On a binding bound to a scope [S], [$bind(flags, S')] with another
    scope [S'] is [$unbind(flags)] followed by [$bind(flags, S')]: the two
    runs end the same way and leave the same binding, world and log. *)
Theorem rebind_is_unbind_then_bind flags S S' m :
  bound_to S (this m) -> S' <> S ->
  _bind flags S' m = (_unbind flags;; _bind flags S') m.
Proof.
  intros [Hb Hs] Hne.
  rewrite bind_rebind; [reflexivity|exact Hb|].
  rewrite Hs. congruence.
Qed.

(** C4. [$unbind] on a binding that was never bound, or that was last
    unbound, returns normally and leaves the binding, the world and the log
    as they were: no state change and no call of [evaluate], [assign] or the
    unbind hook. *)
Theorem unbind_unbound_noop flags m :
  unbound_history (this m) -> _unbind flags m = (Normal tt, m).
Proof.
  intros H. apply unbind_idle, unbound_history_not_bound, H.
Qed.

(** C6. Once [$bind] is past its first check, the first thing it does is
    write a state with [isBinding] set; every call into the expression (the
    bind hook, [assign]) is made under [isBinding]; every state written
    afterwards has [isBinding] or [isBound] set, so [isBinding] is cleared
    only in a state where [isBound] is set; and when [$bind] returns
    normally [isBound] is set and [isBinding] is clear. *)
Theorem bind_state_order flags scope m m0 o m' :
  enters flags scope m m0 ->
  _bind flags scope m = (o, m') ->
  exists s1 evs,
    log m' = log m0 ++ SetState s1 :: evs /\
    has_flag s1 LifecycleState.isBinding = true /\
    Forall (fun s => has_flag s LifecycleState.isBinding
                     || has_flag s LifecycleState.isBound = true)
           (states_after s1 evs) /\
    Forall (fun '(_, s, _) => has_flag s LifecycleState.isBinding = true)
           (calls_under s1 (_scope (this m0)) evs) /\
    (o = Normal tt ->
     bound (this m') = true /\
     has_flag (_state (this m')) LifecycleState.isBinding = false).
Proof.
  intros He H. destruct (bind_enters _ _ _ _ He) as [E Hb].
  rewrite E in H. exact (bind_unbound_timeline _ _ _ _ _ Hb H).
Qed.

(** C8. When the bind hook or the assignment of the target throws during
    [$bind], [$bind] ends with that same throw, and the binding is left half
    way: [$scope] already holds the new scope, [isBinding] is set and
    [isBound] is not. *)
Theorem bind_throw_leaves_partial flags scope m m0 x :
  enters flags scope m m0 ->
  bind_work_throws flags scope m0 x ->
  exists m',
    _bind flags scope m = (Throw x, m') /\
    _scope (this m') = VObj scope /\
    has_flag (_state (this m')) LifecycleState.isBinding = true /\
    bound (this m') = false.
Proof.
  intros He H. destruct (bind_enters _ _ _ _ He) as [E Hb].
  rewrite E. exact (bind_unbound_throw _ _ _ _ Hb H).
Qed.

(** C9. [observeProperty] and [handleChange] do nothing, whatever the state
    of the binding and whatever their arguments: they return normally and
    the binding with all its fields, the world and the log are unchanged. *)
Theorem observe_and_handle_noop m obj propertyName newValue previousValue flags :
  observeProperty obj propertyName m = (Normal tt, m) /\
  handleChange newValue previousValue flags m = (Normal tt, m).
Proof. split; reflexivity. Qed.

(** [$unbind] writes [$state] and [$scope] only. *)
Lemma unbind_fields flags m o m' :
  _unbind flags m = (o, m') ->
  sourceExpression (this m') = sourceExpression (this m) /\
  target (this m') = target (this m) /\
  locator (this m') = locator (this m).
Proof.
  intros H. run. repeat case_match; simplify_eq; cbn; auto.
Qed.

(** A completed [$bind] on an unbound binding: the binding is bound to the
    scope, and the last thing done to the world was the assignment of the
    target. *)
Lemma bind_unbound_normal flags scope m m' :
  bound (this m) = false ->
  _bind flags scope m = (Normal tt, m') ->
  bound_to scope (this m') /\
  sourceExpression (this m') = sourceExpression (this m) /\
  target (this m') = target (this m) /\
  locator (this m') = locator (this m) /\
  exists w1 v s1 hook s2 s3,
    assign (sourceExpression (this m)) flags (VObj scope) (locator (this m))
           (target (this m)) w1 = (Normal v, world m') /\
    log m' =
    log m ++ SetState s1 :: SetScope (VObj scope) :: hook ++
      [Enter (CallAssign flags (VObj scope) (locator (this m))
                         (target (this m)));
       Returned v; SetState s2; SetState s3].
Proof.
  intros Hb H. unfold bound, bound_to in *. run. rewrite Hb in H.
  repeat case_match; simplify_eq; cbn in *.
  all: rewrite <- ?app_assoc; cbn.
  all: repeat split; auto; [unfold bound; cbn; bits; reflexivity|].
  all: eexists _, _, _;
    first [ exists (@nil event); eexists _, _; split; [eassumption|reflexivity]
          | eexists [_; _], _, _; split; [eassumption|reflexivity] ].
Qed.

(** A completed [$bind] that was not a rebind to the same scope got past
    the first check. *)
Lemma bind_normal_enters flags scope m m' :
  ~ bound_to scope (this m) ->
  _bind flags scope m = (Normal tt, m') ->
  exists m0, enters flags scope m m0.
Proof.
  intros Hn H. destruct (bound (this m)) eqn:Hb.
  - assert (Hs : _scope (this m) <> VObj scope).
    { intros Hs. apply Hn. now split. }
    rewrite (bind_rebind _ _ _ Hb Hs) in H.
    destruct (_unbind flags m) as [[[]|x] m1] eqn:E; [|discriminate].
    exists m1. right. auto.
  - exists m. left. auto.
Qed.

Lemma bind_normal_bound_to flags scope m m' :
  _bind flags scope m = (Normal tt, m') -> bound_to scope (this m').
Proof.
  intros H.
  destruct (bound (this m)) eqn:Hb.
  - destruct (decide (_scope (this m) = VObj scope)) as [Hs|Hs].
    + rewrite bind_again_idle in H by now split.
      injection H as <-. now split.
    + rewrite (bind_rebind _ _ _ Hb Hs) in H.
      destruct (_unbind flags m) as [[[]|x] m1] eqn:E; [|discriminate].
      apply (bind_unbound_normal _ _ _ _ (unbind_normal_not_bound _ _ _ E) H).
  - apply (bind_unbound_normal _ _ _ _ Hb H).
Qed.

Lemma unbind_bound_normal flags m m' :
  bound (this m) = true ->
  _unbind flags m = (Normal tt, m') ->
  _scope (this m') = VNull /\
  has_flag (_state (this m')) LifecycleState.isUnbinding = false.
Proof.
  intros Hb H. unfold bound in *. run. rewrite Hb in H. cbn in H.
  repeat case_match; simplify_eq; cbn.
  all: split; [reflexivity|].
  all: rewrite has_isUnbinding, cleared_bits by lia; apply andb_false_r.
Qed.

(** The two states a binding is in between completed calls. *)
Lemma bound_of_state r :
  (_state r = LifecycleState.isBound -> bound r = true) /\
  (_state r = LifecycleState.none -> bound r = false).
Proof. unfold bound. split; intros ->; reflexivity. Qed.

(** Given another value than the scope it holds, a bound binding runs
    [$unbind] and then enters [$bind] again, now unbound. *)
Lemma bind_value_rebind flags (scope : value) m :
  bound (this m) = true -> _scope (this m) <> scope ->
  _bind_value flags scope m =
  match _unbind flags m with
  | (Normal _, m1) => _bind_value flags scope m1
  | (Throw x, m1) => (Throw x, m1)
  end.
Proof.
  intros Hb Hs.
  destruct (_unbind flags m) as [[[]|x] m1] eqn:E.
  - pose proof (unbind_normal_not_bound _ _ _ E) as Hb1.
    unfold bound in Hb, Hb1.
    unfold _bind_value at 1.
    unfold mbind, M_bind, read at 1 2. cbn.
    rewrite Hb. cbn.
    rewrite (proj2 (strict_eq_false _ _) Hs), E.
    unfold _bind_value, mbind, M_bind, read at 5. cbn.
    now rewrite Hb1.
  - unfold bound in Hb.
    unfold _bind_value. unfold mbind, M_bind, read at 1 2. cbn.
    rewrite Hb. cbn.
    now rewrite (proj2 (strict_eq_false _ _) Hs), E.
Qed.

(** A completed [$bind] on an unbound binding, whatever value it is given
    as scope. *)
Lemma bind_value_unbound flags (scope : value) m m' :
  bound (this m) = false ->
  _bind_value flags scope m = (Normal tt, m') ->
  _state (this m') =
  js_and (js_or (js_or (_state (this m)) LifecycleState.isBinding)
                LifecycleState.isBound)
         (js_not LifecycleState.isBinding) /\
  _scope (this m') = scope.
Proof.
  intros Hb H. unfold bound in *. run. rewrite Hb in H.
  repeat case_match; simplify_eq; split; reflexivity.
Qed.

(** A completed [$unbind] leaves [$state] at [none] when it started at
    [isBound] or [none]. *)
Lemma unbind_completed flags m m' :
  _state (this m) = LifecycleState.isBound \/
  _state (this m) = LifecycleState.none ->
  _unbind flags m = (Normal tt, m') ->
  _state (this m') = LifecycleState.none /\
  (_state (this m) = LifecycleState.isBound -> _scope (this m') = VNull) /\
  (_state (this m) = LifecycleState.none -> _scope (this m') = _scope (this m)).
Proof.
  intros Hs H. run.
  destruct (has_flag (_state (this m)) LifecycleState.isBound) eqn:Hb;
    cbn in H.
  - repeat case_match; simplify_eq; fields.
    all: destruct Hs as [Hs|Hs];
      [|rewrite Hs in Hb; vm_compute in Hb; discriminate].
    all: rewrite Hs.
    all: split; [vm_compute; reflexivity|]; split; [reflexivity|discriminate].
  - injection H as <-.
    destruct Hs as [Hs|Hs]; [rewrite Hs in Hb; vm_compute in Hb; discriminate|].
    split; [exact Hs|]. split; [rewrite Hs; discriminate|reflexivity].
Qed.

(** A completed [$bind], whatever value it is given as scope, leaves
    [$state] at [isBound] and that value in [$scope]. *)
Lemma bind_value_completed flags (scope : value) m m' :
  _state (this m) = LifecycleState.isBound \/
  _state (this m) = LifecycleState.none ->
  _bind_value flags scope m = (Normal tt, m') ->
  _state (this m') = LifecycleState.isBound /\ _scope (this m') = scope.
Proof.
  intros Hs H.
  assert (Hfresh : forall m0 : machine W,
            _state (this m0) = LifecycleState.none ->
            _bind_value flags scope m0 = (Normal tt, m') ->
            _state (this m') = LifecycleState.isBound /\
            _scope (this m') = scope).
  { intros m0 H0 Hm.
    destruct (bind_value_unbound flags scope m0 m'
                (proj2 (bound_of_state _) H0) Hm) as [Hst Hsc].
    split; [|exact Hsc]. rewrite Hst, H0. reflexivity. }
  destruct Hs as [Hs|Hs]; [|exact (Hfresh m Hs H)].
  pose proof (proj1 (bound_of_state _) Hs) as Hb.
  destruct (decide (_scope (this m) = scope)) as [Heq|Hne].
  - unfold bound in Hb. run. rewrite Hb in H. cbn in H.
    rewrite (proj2 (strict_eq_true _ _) Heq) in H.
    injection H as <-. now split.
  - rewrite (bind_value_rebind _ _ _ Hb Hne) in H.
    destruct (_unbind flags m) as [[[]|x] m1] eqn:E; [|discriminate].
    destruct (unbind_completed flags m m1 (or_introl Hs) E) as (H1 & _).
    exact (Hfresh m1 H1 H).
Qed.

(** The invariant behind C5: between completed calls, either [$state] is
    [isBound] and [$scope] is a value [$bind] was given, or [$state] is
    [none] and [$scope] is [null] or [undefined]. *)
Lemma reachable_with_inv ok r :
  reachable_with ok r ->
  (_state r = LifecycleState.isBound /\ ok (_scope r)) \/
  (_state r = LifecycleState.none /\
   (_scope r = VNull \/ _scope r = VUndefined)).
Proof.
  induction 1 as [e t l|r flags scope w lg m' _ IH Hok H|r flags w lg m' _ IH H].
  - right. split; [reflexivity|now right].
  - left.
    assert (Hs : _state r = LifecycleState.isBound \/
                 _state r = LifecycleState.none)
      by (destruct IH as [[? _]|[? _]]; auto).
    destruct (bind_value_completed flags scope (mkMachine r w lg) m' Hs H)
      as [Hst Hsc].
    split; [exact Hst|]. now rewrite Hsc.
  - right.
    assert (Hs : _state r = LifecycleState.isBound \/
                 _state r = LifecycleState.none)
      by (destruct IH as [[? _]|[? _]]; auto).
    destruct (unbind_completed flags (mkMachine r w lg) m' Hs H)
      as (Hst & Hb & Hn). cbn in Hb, Hn.
    split; [exact Hst|].
    destruct IH as [[Hs' _]|[Hs' Hsc]].
    + left. exact (Hb Hs').
    + rewrite (Hn Hs'). exact Hsc.
Qed.

(** C5 (amended). In every state a binding reaches from construction by
    completed [$bind] and [$unbind] calls in which [$bind] is only given
    scope objects (values that are neither [null] nor [undefined]),
    [$scope] is neither [null] nor [undefined] exactly when [isBound] is
    set; and [$scope !== null] holds exactly when [isBound] is set or
    [$scope] is still [undefined], as it is from construction to the first
    [$bind]. *)
Theorem scope_set_iff_bound r :
  reachable_with scope_object r ->
  (loose_neq_null (_scope r) = true <-> bound r = true) /\
  (strict_neq (_scope r) VNull = true <->
   bound r = true \/ _scope r = VUndefined).
Proof.
  intros H.
  destruct (reachable_with_inv _ _ H) as [[Hs Hok]|[Hs Hsc]].
  - rewrite (proj1 (bound_of_state r) Hs). unfold scope_object in Hok.
    destruct (_scope r); try discriminate; cbn; repeat split; auto.
  - rewrite (proj2 (bound_of_state r) Hs).
    destruct Hsc as [-> | ->]; cbn; repeat split; auto; try discriminate.
    intros [?|?]; discriminate.
Qed.

(** After a completed [$bind] that got past the first check, an expression
    that reads back what it was assigned evaluates to the target. *)
Lemma bind_reads_back flags scope m m' :
  ~ bound_to scope (this m) ->
  reads_back (sourceExpression (this m)) ->
  _bind flags scope m = (Normal tt, m') ->
  target (this m') = target (this m) /\
  (exists pre v s2 s3,
     log m' =
     pre ++ [Enter (CallAssign flags (VObj scope) (locator (this m'))
                               (target (this m')));
             Returned v; SetState s2; SetState s3]) /\
  evaluates_to (sourceExpression (this m')) (VObj scope) (world m')
               (target (this m')).
Proof.
  intros Hn Hr H.
  destruct (bind_normal_enters _ _ _ _ Hn H) as [m0 He].
  destruct (bind_enters _ _ _ _ He) as [E Hb0]. rewrite E in H.
  destruct (bind_unbound_normal _ _ _ _ Hb0 H)
    as (_ & He' & Ht & Hl & w1 & v & s1 & hook & s2 & s3 & Ha & Hlog).
  assert (F : sourceExpression (this m0) = sourceExpression (this m) /\
              target (this m0) = target (this m) /\
              locator (this m0) = locator (this m)).
  { destruct He as [[_ ->]|(_ & _ & Hu)]; [auto|].
    exact (unbind_fields _ _ _ _ Hu). }
  destruct F as (Fe & Ft & Fl).
  rewrite He', Ht, Hl. split; [congruence|]. split.
  - eexists (log m0 ++ SetState s1 :: SetScope (VObj scope) :: hook), v, s2, s3.
    rewrite Hlog, <- app_assoc. reflexivity.
  - rewrite Fe. rewrite Fe in Ha. exact (Hr _ _ _ _ _ _ _ Ha).
Qed.

(** C10 (amended). On a binding bound to a scope, every call [$unbind]
    makes into the expression (the guard evaluation, the assignment of
    [null], the unbind hook) is made while [$scope] still holds that scope
    and is given that scope. When [$unbind] returns normally, [$scope] is
    [null] and [isBound] and [isUnbinding] are clear, whether or not the
    assignment was made and whether or not there is an unbind hook. When a
    call throws, [$unbind] ends with the throw and resets nothing. *)
Theorem unbind_releases flags scope m o m' :
  bound_to scope (this m) ->
  _unbind flags m = (o, m') ->
  exists evs,
    log m' = log m ++ evs /\
    Forall (fun '(c, _, sc) => sc = VObj scope /\ call_scope c = VObj scope)
           (calls_under (_state (this m)) (_scope (this m)) evs) /\
    (o = Normal tt ->
     _scope (this m') = VNull /\
     bound (this m') = false /\
     has_flag (_state (this m')) LifecycleState.isUnbinding = false) /\
    (forall x, o = Throw x ->
     _scope (this m') = VObj scope /\
     bound (this m') = true /\
     has_flag (_state (this m')) LifecycleState.isUnbinding = true).
Proof.
  intros [Hb Hs] H. unfold bound in *. run. rewrite Hb in H. cbn in H.
  rewrite has_isBound in Hb.
  repeat case_match; simplify_eq; cbn in *.
  all: rewrite <- ?app_assoc; cbn.
  all: eexists; split; [reflexivity|]; cbn.
  all: rewrite ?Hs.
  all: repeat first [apply Forall_cons | apply Forall_nil | split];
    try discriminate; try intros _; try (intros ? [= <-]); auto.
  all: bits; auto.
Qed.

(** C1. On a binding bound to a scope, [$unbind] calls [assign] with
    [null] exactly when the expression, evaluated against that scope,
    returns the target of the binding. In particular, when the expression
    denotes a location and another binding on it, with another target, has
    completed its [$bind] to the same scope and left this world, [$unbind]
    makes no such call and the expression still evaluates to that other
    target afterwards. *)
Theorem unbind_guard flags scope m o m' :
  bound_to scope (this m) ->
  _unbind flags m = (o, m') ->
  let e := sourceExpression (this m) in
  let clear :=
    Enter (CallAssign flags (VObj scope) (locator (this m)) VNull) in
  exists evs,
    log m' = log m ++ evs /\
    (In clear evs <->
     fst (evaluate e flags (VObj scope) (locator (this m)) (world m))
     = Normal (target (this m))) /\
    (forall flags2 m2 m2',
       location e ->
       sourceExpression (this m2) = e ->
       ~ bound_to scope (this m2) ->
       _bind flags2 scope m2 = (Normal tt, m2') ->
       world m = world m2' ->
       target (this m2) <> target (this m) ->
       ~ In clear evs /\
       evaluates_to e (VObj scope) (world m') (target (this m2))).
Proof.
  intros [Hb Hs] H e clear.
  assert (G : exists evs,
    log m' = log m ++ evs /\
    (In clear evs <->
     fst (evaluate e flags (VObj scope) (locator (this m)) (world m))
     = Normal (target (this m))) /\
    (forall v, location e -> evaluates_to e (VObj scope) (world m) v ->
               v <> target (this m) ->
               evaluates_to e (VObj scope) (world m') v)).
  { subst e clear. unfold bound in *. run. rewrite Hb in H. cbn in H.
    rewrite Hs in *.
    destruct (evaluate _ _ _ _ _) as [[v|x] w1] eqn:Ev; cbn in *.
    - destruct (strict_eq v (target (this m))) eqn:Eq.
      + apply strict_eq_true in Eq. subst v.
        repeat case_match; simplify_eq; cbn; rewrite <- ?app_assoc; cbn.
        all: eexists; split; [reflexivity|]; split.
        all: try (split; [reflexivity|intros _; cbn; tauto]).
        all: intros v _ Hv Hne; specialize (Hv flags (locator (this m)));
          rewrite Ev in Hv; cbn in Hv; congruence.
      + apply strict_eq_false in Eq.
        assert (Hw : w1 = snd (evaluate (sourceExpression (this m)) flags
                                  (VObj scope) (locator (this m)) (world m)))
          by now rewrite Ev.
        repeat case_match; simplify_eq; cbn in *; rewrite <- ?app_assoc; cbn.
        all: eexists; split; [reflexivity|]; split.
        all: try (split; [intros HIn; cbn in HIn; intuition discriminate
                         |intros [= ->]; congruence]).
        all: intros v' L Hv _.
        all: try match goal with
             | Hu : unbind _ _ _ ?b ?w0 = (_, ?w) |- evaluates_to _ _ ?w _ =>
                 replace w with
                   (snd (unbind (sourceExpression (this m)) flags (VObj scope)
                                b w0)) by now rewrite Hu
             end.
        all: try apply (location_unbind _ L).
        all: apply (location_evaluate _ L), Hv.
    - injection H as <- <-. cbn. rewrite <- ?app_assoc; cbn.
      eexists; split; [reflexivity|]; split.
      + split; [intros HIn; cbn in HIn; intuition discriminate|discriminate].
      + intros v _ Hv _. specialize (Hv flags (locator (this m))).
        rewrite Ev in Hv. discriminate. }
  destruct G as (evs & Hlog & Hiff & Hkeep).
  exists evs. split; [exact Hlog|]. split; [exact Hiff|].
  intros flags2 m2 m2' L He2 Hn2 Hb2 Hw Hne.
  assert (Hv : evaluates_to e (VObj scope) (world m) (target (this m2))).
  { rewrite Hw.
    destruct (bind_reads_back _ _ _ _ Hn2
                ltac:(rewrite He2; apply (location_reads_back _ L)) Hb2)
      as (Ht & _ & Hev).
    rewrite <- Ht, <- He2.
    destruct (bind_normal_enters _ _ _ _ Hn2 Hb2) as [m0 Hen].
    destruct (bind_enters _ _ _ _ Hen) as [E Hb0]. rewrite E in Hb2.
    destruct (bind_unbound_normal _ _ _ _ Hb0 Hb2) as (_ & He' & _).
    assert (F : sourceExpression (this m0) = sourceExpression (this m2)).
    { destruct Hen as [[_ ->]|(_ & _ & Hu)]; [auto|].
      exact (proj1 (unbind_fields _ _ _ _ Hu)). }
    rewrite <- F, <- He'. exact Hev. }
  split.
  - rewrite Hiff. specialize (Hv flags (locator (this m))).
    fold e. rewrite Hv. congruence.
  - exact (Hkeep _ L Hv Hne).
Qed.
(** C7 (amended). After [$bind(flags, S)] completes normally on a binding
    that was not already bound to [S], the last call into the expression
    was the assignment of the target against [S], and an expression that
    reads back what it was assigned evaluates against [S] to the target of
    the binding. *)
Theorem bind_then_evaluates flags scope m m' :
  ~ bound_to scope (this m) ->
  reads_back (sourceExpression (this m)) ->
  _bind flags scope m = (Normal tt, m') ->
  target (this m') = target (this m) /\
  (exists pre v s2 s3,
     log m' =
     pre ++ [Enter (CallAssign flags (VObj scope) (locator (this m'))
                               (target (this m')));
             Returned v; SetState s2; SetState s3]) /\
  evaluates_to (sourceExpression (this m')) (VObj scope) (world m')
               (target (this m')).
Proof. apply bind_reads_back. Qed.

End Properties.

(** * The properties on the sample bindings *)

Import Sample.

Lemma AccessScope_reads_back name : reads_back (AccessScope name).
Proof.
  intros flags sc l v w r w' H flags' l'.
  destruct sc; cbn in *; simplify_eq.
  now rewrite lookup_insert_eq.
Qed.

Lemma AccessScope_location name : location (AccessScope name).
Proof.
  split.
  - apply AccessScope_reads_back.
  - intros sc v w flags l H. now destruct sc.
  - intros sc v w flags b H. exact H.
Qed.

(** The scenario of the guard: [B1] and [B2] bound to the same scope on the
    same expression, then [B1] unbound: the property still holds the target
    of [B2]. *)
Example guard_scenario :
  fst (evaluate (AccessScope "el") 0 (VObj S7) 0%nat
         (world (snd (_unbind 0 back_to_1)))) = Normal T2.
Proof. vm_compute. reflexivity. Qed.

(** A bind hook that throws: [$bind] ends with the throw, [$scope] holds the
    new scope and the state is [isBinding] alone. *)
Example failing_hook :
  fst (_bind 0 S7 (start (new_Ref (FailingHook "el") T1 0%nat)))
  = Throw (thrown HookFailed) /\
  _scope (this (snd (_bind 0 S7 (start (new_Ref (FailingHook "el") T1 0%nat)))))
  = VObj S7 /\
  _state (this (snd (_bind 0 S7 (start (new_Ref (FailingHook "el") T1 0%nat)))))
  = LifecycleState.isBinding.
Proof. repeat split; vm_compute; reflexivity. Qed.

(** Bound and unbound in turn, [B1] clears the property. *)
Example unbind_clears :
  fst (evaluate (AccessScope "el") 0 (VObj S7) 0%nat (world unbound1))
  = Normal VNull.
Proof. vm_compute. reflexivity. Qed.

(** A run that ends normally, told from its first component. *)
Lemma run_normal {A : Type} (c : M (W := store) A) m a :
  fst (c m) = Normal a -> c m = (Normal a, snd (c m)).
Proof. destruct (c m) as [o m']. cbn. now intros ->. Qed.

Lemma world_switch r m : world (switch r m) = world m.
Proof. reflexivity. Qed.

Lemma unbind_guard_witness :
  bound_to S7 (this back_to_1) /\
  ~ In (Enter (CallAssign 0 (VObj S7) 0%nat VNull))
       (skipn (length (log back_to_1)) (log (snd (_unbind 0 back_to_1)))) /\
  evaluates_to (AccessScope "el") (VObj S7)
               (world (snd (_unbind 0 back_to_1))) T2.
Proof.
  assert (Hb : bound_to S7 (this back_to_1)) by (split; vm_compute; reflexivity).
  split; [exact Hb|].
  destruct (unbind_guard 0 S7 back_to_1 _ _ Hb
              (surjective_pairing (_unbind 0 back_to_1)))
    as (evs & Hlog & _ & Hk).
  rewrite Hlog, drop_app_length.
  apply (Hk 0 (switch B2 bound1) bound12).
  - apply AccessScope_location.
  - symmetry.
    apply (proj1 (proj2 (bind_unbound_normal 0 S7 (start B1) bound1 eq_refl
                    (run_normal (_bind 0 S7) (start B1) tt
                                ltac:(vm_compute; reflexivity))))).
  - intros [H _]. vm_compute in H. discriminate.
  - apply (run_normal (_bind 0 S7) (switch B2 bound1) tt).
    vm_compute. reflexivity.
  - exact (world_switch (this bound1) bound12).
  - discriminate.
Defined.

Lemma bind_same_scope_noop_witness :
  bound_to S7 (this bound1) /\ _bind 5 S7 bound1 = (Normal tt, bound1).
Proof.
  assert (Hb : bound_to S7 (this bound1)) by (split; vm_compute; reflexivity).
  split; [exact Hb|]. exact (bind_same_scope_noop 5 S7 bound1 Hb).
Defined.

Lemma rebind_is_unbind_then_bind_witness :
  bound_to S7 (this bound1) /\ S8 <> S7 /\
  _bind 0 S8 bound1 = (_unbind 0;; _bind 0 S8) bound1.
Proof.
  assert (Hb : bound_to S7 (this bound1)) by (split; vm_compute; reflexivity).
  assert (Hne : S8 <> S7) by discriminate.
  split; [exact Hb|]. split; [exact Hne|].
  exact (rebind_is_unbind_then_bind 0 S7 S8 bound1 Hb Hne).
Defined.

Lemma unbind_unbound_noop_witness :
  unbound_history (this (start B1)) /\
  _unbind 0 (start B1) = (Normal tt, start B1).
Proof.
  assert (H : unbound_history (this (start B1))) by apply never_bound.
  split; [exact H|]. exact (unbind_unbound_noop 0 (start B1) H).
Defined.

Lemma bound1_reachable : reachable_with scope_object (this bound1).
Proof.
  apply (reach_bind scope_object B1 0 (VObj S7) ∅ [] bound1
           (reach_new _ _ _ _) eq_refl).
  apply (run_normal (_bind 0 S7) (start B1) tt). vm_compute. reflexivity.
Qed.

Lemma bound_null_reachable : reachable (this bound_null).
Proof.
  apply (reach_bind (fun _ => True) Bg 0 VNull ∅ [] bound_null
           (reach_new _ _ _ _) I).
  apply (run_normal (_bind_value 0 VNull) (start Bg) tt).
  vm_compute. reflexivity.
Qed.

(** C5, counterexample. A binding that has just been constructed is
    reachable and not bound, and its [$scope] is [undefined], which is not
    [null]. And a binding whose [$bind] was given [null] as scope, on an
    expression that does not read the scope, is reachable and bound, and its
    [$scope] is [null]. *)
Lemma scope_not_null_iff_bound_fails :
  (reachable B1 /\
   ~ (strict_neq (_scope B1) VNull = true <-> bound B1 = true)) /\
  (reachable (this bound_null) /\
   ~ (strict_neq (_scope (this bound_null)) VNull = true <->
      bound (this bound_null) = true)).
Proof.
  split.
  - split; [apply reach_new|].
    intros [H _]. specialize (H eq_refl). discriminate.
  - split; [exact bound_null_reachable|].
    intros [_ H].
    assert (Hb : bound (this bound_null) = true) by (vm_compute; reflexivity).
    specialize (H Hb). vm_compute in H. discriminate.
Qed.

(** The invariant at [B1] bound to [S7]. *)
Lemma scope_set_iff_bound_witness :
  reachable_with scope_object (this bound1) /\
  (loose_neq_null (_scope (this bound1)) = true <-> bound (this bound1) = true).
Proof.
  split; [exact bound1_reachable|].
  exact (proj1 (scope_set_iff_bound (this bound1) bound1_reachable)).
Defined.

Lemma bind_state_order_witness :
  enters 0 S8 bound1 unbound1 /\
  exists s1 evs,
    log (snd (_bind 0 S8 bound1)) = log unbound1 ++ SetState s1 :: evs /\
    has_flag s1 LifecycleState.isBinding = true /\
    Forall (fun s => has_flag s LifecycleState.isBinding
                     || has_flag s LifecycleState.isBound = true)
           (states_after s1 evs) /\
    Forall (fun '(_, s, _) => has_flag s LifecycleState.isBinding = true)
           (calls_under s1 (_scope (this unbound1)) evs) /\
    (fst (_bind 0 S8 bound1) = Normal tt ->
     bound (this (snd (_bind 0 S8 bound1))) = true /\
     has_flag (_state (this (snd (_bind 0 S8 bound1))))
              LifecycleState.isBinding = false).
Proof.
  assert (He : enters 0 S8 bound1 unbound1).
  { right. split; [vm_compute; reflexivity|]. split.
    - intros H. vm_compute in H. discriminate.
    - apply (run_normal (_unbind 0) bound1 tt). vm_compute. reflexivity. }
  split; [exact He|].
  exact (bind_state_order 0 S8 bound1 unbound1 _ _ He
           (surjective_pairing (_bind 0 S8 bound1))).
Defined.

Lemma bind_throw_leaves_partial_witness :
  enters 0 S7 (start Br) (start Br) /\
  bind_work_throws 0 S7 (start Br) (thrown NotAssignable) /\
  exists m',
    _bind 0 S7 (start Br) = (Throw (thrown NotAssignable), m') /\
    _scope (this m') = VObj S7 /\
    has_flag (_state (this m')) LifecycleState.isBinding = true /\
    bound (this m') = false.
Proof.
  assert (He : enters 0 S7 (start Br) (start Br)) by (left; split; reflexivity).
  assert (Ht : bind_work_throws 0 S7 (start Br) (thrown NotAssignable))
    by reflexivity.
  split; [exact He|]. split; [exact Ht|].
  exact (bind_throw_leaves_partial 0 S7 (start Br) (start Br) _ He Ht).
Defined.

Lemma back_to_1_bound_to : bound_to S7 (this back_to_1).
Proof. split; vm_compute; reflexivity. Qed.

(** C7, counterexample. [B1] is bound to [S7], then [B2] is bound to [S7] on
    the same expression. Binding [B1] to [S7] once more completes normally,
    as the rebind to the same scope it is, and the expression evaluates
    against [S7] to the target of [B2], which is not the target of [B1]. *)
Lemma rebind_same_scope_keeps_other_target :
  _bind 0 S7 back_to_1 = (Normal tt, back_to_1) /\
  fst (evaluate (sourceExpression (this back_to_1)) 0 (VObj S7)
         (locator (this back_to_1)) (world back_to_1)) = Normal T2 /\
  ~ evaluates_to (sourceExpression (this back_to_1)) (VObj S7)
                 (world back_to_1) (target (this back_to_1)).
Proof.
  assert (He : fst (evaluate (sourceExpression (this back_to_1)) 0 (VObj S7)
                      (locator (this back_to_1)) (world back_to_1))
               = Normal T2) by (vm_compute; reflexivity).
  split; [exact (bind_again_idle 0 S7 back_to_1 back_to_1_bound_to)|].
  split; [exact He|].
  intros H. specialize (H 0 (locator (this back_to_1))).
  rewrite He in H. vm_compute in H. discriminate.
Qed.

Lemma bind_then_evaluates_witness :
  ~ bound_to S7 (this (start B1)) /\
  reads_back (sourceExpression (this (start B1))) /\
  _bind 0 S7 (start B1) = (Normal tt, bound1) /\
  evaluates_to (sourceExpression (this bound1)) (VObj S7) (world bound1)
               (target (this bound1)).
Proof.
  assert (Hn : ~ bound_to S7 (this (start B1)))
    by (intros [H _]; discriminate).
  assert (Hr : reads_back (sourceExpression (this (start B1))))
    by apply AccessScope_reads_back.
  assert (Hb : _bind 0 S7 (start B1) = (Normal tt, bound1)).
  { apply (run_normal (_bind 0 S7) (start B1) tt). vm_compute. reflexivity. }
  split; [exact Hn|]. split; [exact Hr|]. split; [exact Hb|].
  exact (proj2 (proj2 (bind_then_evaluates 0 S7 (start B1) bound1 Hn Hr Hb))).
Defined.

(** C10, counterexample. A binding bound to [S7] on an expression that
    cannot be evaluated: [$unbind] ends with the throw of [evaluate], and
    [$scope] still holds [S7], [isBound] is still set and [isUnbinding] is
    set. *)
Lemma unbind_throw_resets_nothing :
  bound_to S7 (this boundx) /\
  fst (_unbind 0 boundx) = Throw (thrown TypeError) /\
  _scope (this (snd (_unbind 0 boundx))) = VObj S7 /\
  _scope (this (snd (_unbind 0 boundx))) <> VNull /\
  bound (this (snd (_unbind 0 boundx))) = true /\
  has_flag (_state (this (snd (_unbind 0 boundx))))
           LifecycleState.isUnbinding = true.
Proof.
  split; [split; vm_compute; reflexivity|].
  repeat split; try (vm_compute; reflexivity).
  intros H. vm_compute in H. discriminate.
Qed.

Lemma unbind_releases_witness :
  bound_to S7 (this boundh) /\
  fst (_unbind 0 boundh) = Normal tt /\
  _scope (this (snd (_unbind 0 boundh))) = VNull /\
  bound (this (snd (_unbind 0 boundh))) = false /\
  has_flag (_state (this (snd (_unbind 0 boundh))))
           LifecycleState.isUnbinding = false.
Proof.
  assert (Hb : bound_to S7 (this boundh)) by (split; vm_compute; reflexivity).
  assert (Hn : fst (_unbind 0 boundh) = Normal tt) by (vm_compute; reflexivity).
  split; [exact Hb|]. split; [exact Hn|].
  destruct (unbind_releases 0 S7 boundh _ _ Hb
              (surjective_pairing (_unbind 0 boundh)))
    as (evs & _ & _ & Hk & _).
  exact (Hk Hn).
Defined.

(** * Further properties of the two methods *)

(** Finish a goal about membership in an explicit list of events. *)
Ltac in_log :=
  cbn [In last] in *;
  repeat match goal with
         | H : _ \/ _ |- _ => destruct H
         | H : False |- _ => destruct H
         end;
  simplify_eq;
  first [ solve [auto]
        | congruence
        | solve [repeat first [left; reflexivity | right]]
        | idtac ].

Section Further.

Context {W : Type}.

Implicit Types (m : machine W) (r : Ref W) (flags : BindingFlags)
  (scope : IScope).

(** The three ways [$bind] can go. *)
Lemma bind_cases flags scope m :
  (bound_to scope (this m) /\ _bind flags scope m = (Normal tt, m)) \/
  (bound (this m) = true /\ _scope (this m) <> VObj scope /\
   (exists x, fst (_unbind flags m) = Throw x) /\
   _bind flags scope m = _unbind flags m) \/
  (exists m0, enters flags scope m m0 /\
              _bind flags scope m = _bind flags scope m0 /\
              bound (this m0) = false).
Proof.
  destruct (bound (this m)) eqn:Hb.
  - destruct (decide (_scope (this m) = VObj scope)) as [Hs|Hs].
    + left. split; [now split|]. apply bind_again_idle. now split.
    + right. rewrite (bind_rebind _ _ _ Hb Hs).
      destruct (_unbind flags m) as [[[]|x] m1] eqn:E.
      * right. exists m1. split; [right; auto|].
        split; [reflexivity|exact (unbind_normal_not_bound _ _ _ E)].
      * left. repeat split; auto. now exists x.
  - right. right. exists m. split; [left; auto|]. auto.
Qed.

(** [$unbind] leaves every field but [$state] and [$scope] alone. *)
Lemma unbind_same_fields flags m :
  same_fields (this m) (this (snd (_unbind flags m))).
Proof.
  unfold same_fields. run. repeat case_match; simplify_eq; cbn; auto.
Qed.

Lemma bind_unbound_same_fields flags scope m :
  bound (this m) = false ->
  same_fields (this m) (this (snd (_bind flags scope m))).
Proof.
  intros Hb. unfold same_fields, bound in *. run. rewrite Hb.
  repeat case_match; simplify_eq; cbn; auto.
Qed.

Lemma same_fields_trans r1 r2 r3 :
  same_fields r1 r2 -> same_fields r2 r3 -> same_fields r1 r3.
Proof.
  unfold same_fields. intros (?&?&?&?&?) (?&?&?&?&?).
  repeat split; congruence.
Qed.

Lemma bind_same_fields flags scope m :
  same_fields (this m) (this (snd (_bind flags scope m))).
Proof.
  destruct (bind_cases flags scope m)
    as [[_ E]|[(_ & _ & _ & E)|(m0 & He & E & Hb0)]]; rewrite E.
  - cbn. repeat split.
  - apply unbind_same_fields.
  - apply same_fields_trans with (this m0).
    + destruct He as [[_ ->]|(_ & _ & Hu)]; [repeat split|].
      pose proof (unbind_same_fields flags m) as H. now rewrite Hu in H.
    + now apply bind_unbound_same_fields.
Qed.

(** X1. However they end, [$bind] and [$unbind] write no field of the
    binding other than [$state] and [$scope]: [sourceExpression], [target],
    [locator], [$nextBindable] and [$prevBindable] are what they were. *)
Theorem methods_keep_fields flags scope m :
  same_fields (this m) (this (snd (_bind flags scope m))) /\
  same_fields (this m) (this (snd (_unbind flags m))).
Proof.
  split; [apply bind_same_fields|apply unbind_same_fields].
Qed.

(** The three flags the methods use occupy bits 0 to 2. *)
Lemma flag_high_bit n :
  3 <= n ->
  Z.testbit LifecycleState.isBinding n = false /\
  Z.testbit LifecycleState.isBound n = false /\
  Z.testbit LifecycleState.isUnbinding n = false.
Proof.
  intros Hn.
  unfold LifecycleState.isBinding, LifecycleState.isBound,
    LifecycleState.isUnbinding.
  repeat split; apply Z.bits_above_log2; cbn; lia.
Qed.

Lemma unbind_other_bits flags m n :
  3 <= n < 32 ->
  Z.testbit (_state (this (snd (_unbind flags m)))) n
  = Z.testbit (_state (this m)) n.
Proof.
  intros Hn. destruct (flag_high_bit n ltac:(lia)) as (H0 & H1 & H2).
  run. repeat case_match; simplify_eq; cbn; auto.
  all: rewrite ?js_and_not_testbit, ?js_or_testbit by lia.
  all: rewrite ?js_and_not_testbit, ?js_or_testbit by lia.
  all: rewrite ?H0, ?H1, ?H2, ?orb_false_r, ?andb_true_r; reflexivity.
Qed.

Lemma bind_unbound_other_bits flags scope m n :
  bound (this m) = false ->
  3 <= n < 32 ->
  Z.testbit (_state (this (snd (_bind flags scope m)))) n
  = Z.testbit (_state (this m)) n.
Proof.
  intros Hb Hn. destruct (flag_high_bit n ltac:(lia)) as (H0 & H1 & H2).
  unfold bound in *. run. rewrite Hb.
  repeat case_match; simplify_eq; cbn; auto.
  all: rewrite ?js_and_not_testbit, ?js_or_testbit by lia.
  all: rewrite ?js_and_not_testbit, ?js_or_testbit by lia.
  all: rewrite ?H0, ?H1, ?H2, ?orb_false_r, ?andb_true_r; reflexivity.
Qed.

(** X2. However they end, [$bind] and [$unbind] leave every bit of
    [$state] from bit 3 to bit 31 as it was: they only set and clear
    [isBinding], [isBound] and [isUnbinding]. *)
Theorem methods_keep_other_bits flags scope m n :
  3 <= n < 32 ->
  Z.testbit (_state (this (snd (_bind flags scope m)))) n
  = Z.testbit (_state (this m)) n /\
  Z.testbit (_state (this (snd (_unbind flags m)))) n
  = Z.testbit (_state (this m)) n.
Proof.
  intros Hn. split; [|now apply unbind_other_bits].
  destruct (bind_cases flags scope m)
    as [[_ E]|[(_ & _ & _ & E)|(m0 & He & E & Hb0)]]; rewrite E.
  - reflexivity.
  - now apply unbind_other_bits.
  - rewrite bind_unbound_other_bits by assumption.
    destruct He as [[_ ->]|(_ & _ & Hu)]; [reflexivity|].
    pose proof (unbind_other_bits flags m n Hn) as H. now rewrite Hu in H.
Qed.

(** X4. From any state, [$bind] to a scope followed by [$bind] to the same
    scope (with any flags) does what the first [$bind] alone does, and
    [$unbind] followed by [$unbind] does what the first alone does: same
    outcome, binding, world and log. *)
Theorem bind_and_unbind_idempotent flags flags' scope m :
  (_bind flags scope;; _bind flags' scope) m = _bind flags scope m /\
  (_unbind flags;; _unbind flags') m = _unbind flags m.
Proof.
  split.
  - unfold mbind at 1, M_bind.
    destruct (_bind flags scope m) as [[[]|x] m'] eqn:E; [|reflexivity].
    apply bind_again_idle. exact (bind_normal_bound_to _ _ _ _ E).
  - unfold mbind at 1, M_bind.
    destruct (_unbind flags m) as [[[]|x] m'] eqn:E; [|reflexivity].
    apply unbind_idle. exact (unbind_normal_not_bound _ _ _ E).
Qed.

(** X3. Between completed calls, whatever values [$bind] was given as
    scope, a binding that started from construction has [$state] equal to
    [isBound] or to [none]: [isBinding] and [isUnbinding] are never left
    set. When [$state] is [none], [$scope] is [null] or [undefined]; when it
    is [isBound], [$scope] is a value [$bind] was given, so it has every
    property all those values have. *)
Theorem reachable_states (ok : value -> Prop) r :
  reachable_with ok r ->
  (_state r = LifecycleState.isBound /\ ok (_scope r)) \/
  (_state r = LifecycleState.none /\
   (_scope r = VNull \/ _scope r = VUndefined)).
Proof. apply reachable_with_inv. Qed.

(** What an expression call throws ends the method. *)
Lemma unbind_throws_logged flags m :
  exists evs,
    log (snd (_unbind flags m)) = log m ++ evs /\
    forall x,
      (In (Threw x) evs <-> fst (_unbind flags m) = Throw x) /\
      (In (Threw x) evs -> last evs = Some (Threw x)).
Proof.
  run. repeat case_match; simplify_eq; cbn; rewrite <- ?app_assoc; cbn.
  all: try (exists []; split; [now rewrite app_nil_r|];
            intros x; repeat split; intros; in_log; fail).
  all: eexists; split; [reflexivity|].
  all: intros y; repeat split; intros; in_log.
Qed.

Lemma bind_unbound_throws_logged flags scope m :
  bound (this m) = false ->
  exists evs,
    log (snd (_bind flags scope m)) = log m ++ evs /\
    forall x,
      (In (Threw x) evs <-> fst (_bind flags scope m) = Throw x) /\
      (In (Threw x) evs -> last evs = Some (Threw x)).
Proof.
  intros Hb. unfold bound in Hb. run. rewrite Hb.
  repeat case_match; simplify_eq; cbn; rewrite <- ?app_assoc; cbn.
  all: eexists; split; [reflexivity|].
  all: intros y; repeat split; intros; in_log.
Qed.

(** X5. Neither method catches anything: a throw recorded among the
    events a run of [$bind] or [$unbind] adds is the last of them, and the
    method ends with that throw; a method that ends normally has recorded
    no throw. *)
Theorem throws_are_passed_on flags scope m :
  (exists evs,
     log (snd (_bind flags scope m)) = log m ++ evs /\
     forall x,
       (In (Threw x) evs <-> fst (_bind flags scope m) = Throw x) /\
       (In (Threw x) evs -> last evs = Some (Threw x))) /\
  (exists evs,
     log (snd (_unbind flags m)) = log m ++ evs /\
     forall x,
       (In (Threw x) evs <-> fst (_unbind flags m) = Throw x) /\
       (In (Threw x) evs -> last evs = Some (Threw x))).
Proof.
  split; [|apply unbind_throws_logged].
  destruct (bind_cases flags scope m)
    as [[_ E]|[(_ & _ & _ & E)|(m0 & He & E & Hb0)]]; rewrite E.
  - exists []. cbn. split; [now rewrite app_nil_r|].
    intros x. repeat split; intros; in_log.
  - apply unbind_throws_logged.
  - destruct (bind_unbound_throws_logged flags scope m0 Hb0)
      as (post & Hpost & Hx).
    destruct He as [[_ ->]|(_ & _ & Hu)]; [now exists post|].
    destruct (unbind_throws_logged flags m) as (pre & Hpre & Hy).
    rewrite Hu in Hpre, Hy. cbn in Hpre, Hy.
    assert (Hno : forall x, ~ In (Threw x) pre).
    { intros x Hin. destruct (Hy x) as [Hi _]. apply Hi in Hin.
      discriminate. }
    exists (pre ++ post). split; [now rewrite Hpost, Hpre, app_assoc|].
    intros x. destruct (Hx x) as [Hiff Hlast]. split.
    + rewrite in_app_iff. split.
      * intros [Hin|Hin]; [destruct (Hno _ Hin)|now apply Hiff].
      * intros Ht. right. now apply Hiff.
    + rewrite in_app_iff. intros [Hin|Hin]; [destruct (Hno _ Hin)|].
      rewrite last_app, (Hlast Hin). reflexivity.
Qed.


(** The calls [$unbind] makes on a bound binding. *)
Lemma unbind_call_facts flags m :
  bound (this m) = true ->
  let r := this m in
  let e := sourceExpression r in
  let hook := CallUnbind flags (_scope r) (unbinding_view r) in
  exists evs,
    log (snd (_unbind flags m)) = log m ++ evs /\
    Forall (fun ev =>
              match ev with
              | Enter c =>
                  c = CallEvaluate flags (_scope r) (locator r) \/
                  c = CallAssign flags (_scope r) (locator r) VNull \/
                  c = hook
              | _ => True
              end) evs /\
    (assigned evs = [] \/ assigned evs = [(_scope r, VNull)]) /\
    (In (Enter hook) evs -> hasUnbind e = true) /\
    (fst (_unbind flags m) = Normal tt ->
     hasUnbind e = true -> In (Enter hook) evs).
Proof.
  intros Hb r e hook. subst r e hook.
  unfold bound, unbinding_view in *. run. unfold view_of. rewrite Hb. cbn.
  repeat case_match; simplify_eq; cbn in *; rewrite <- ?app_assoc; cbn.
  all: eexists; split; [reflexivity|].
  all: split; [repeat first [apply Forall_cons | apply Forall_nil | split];
               auto|].
  all: cbn; split; [auto|].
  all: split; intros; in_log.
Qed.

(** X6. On a bound binding, the only calls [$unbind] makes are [evaluate]
    and [assign] with its flags, [$scope] and [locator], the latter with
    [null] and at most once, and the unbind hook with its flags, [$scope]
    and the binding under [isUnbinding]. The hook is called only on an
    expression that has one, and a [$unbind] that completes on such an
    expression has called it. *)
Theorem unbind_calls flags m :
  bound (this m) = true ->
  let r := this m in
  let e := sourceExpression r in
  let hook := CallUnbind flags (_scope r) (unbinding_view r) in
  exists evs,
    log (snd (_unbind flags m)) = log m ++ evs /\
    Forall (fun ev =>
              match ev with
              | Enter c =>
                  c = CallEvaluate flags (_scope r) (locator r) \/
                  c = CallAssign flags (_scope r) (locator r) VNull \/
                  c = hook
              | _ => True
              end) evs /\
    (assigned evs = [] \/ assigned evs = [(_scope r, VNull)]) /\
    (In (Enter hook) evs -> hasUnbind e = true) /\
    (fst (_unbind flags m) = Normal tt ->
     hasUnbind e = true -> In (Enter hook) evs).
Proof. exact (unbind_call_facts flags m). Qed.

(** The calls [$bind] makes past its first check. *)
Lemma bind_call_facts flags scope m m0 :
  enters flags scope m m0 ->
  let r := this m0 in
  let e := sourceExpression r in
  let hook := CallBind flags (VObj scope) (binding_view scope r) in
  exists evs,
    log (snd (_bind flags scope m)) = log m0 ++ evs /\
    Forall (fun ev =>
              match ev with
              | Enter c =>
                  c = hook \/
                  c = CallAssign flags (VObj scope) (locator r) (target r)
              | _ => True
              end) evs /\
    (In (Enter hook) evs -> hasBind e = true) /\
    (fst (_bind flags scope m) = Normal tt ->
     assigned evs = [(VObj scope, target r)] /\
     (hasBind e = true -> In (Enter hook) evs)).
Proof.
  intros He r e hook. subst r e hook.
  destruct (bind_enters _ _ _ _ He) as [E Hb]. rewrite E. clear E He.
  unfold bound, binding_view in *. run. unfold view_of. rewrite Hb. cbn.
  repeat case_match; simplify_eq; cbn in *; rewrite <- ?app_assoc; cbn.
  all: eexists; split; [reflexivity|].
  all: split; [repeat first [apply Forall_cons | apply Forall_nil | split];
               auto|].
  all: cbn; split; [intros; in_log|].
  all: intros Hn;
    first [discriminate | split; [reflexivity|intros; in_log]].
Qed.

(** X7. Past its first check, the only calls [$bind] makes are the bind
    hook with its flags, the new scope and the binding under [isBinding],
    and [assign] with its flags, the new scope, [locator] and [target]. The
    hook is called only on an expression that has one. A [$bind] that
    completes has assigned exactly once, the target, and has called the
    hook of an expression that has one. *)
Theorem bind_calls flags scope m m0 :
  enters flags scope m m0 ->
  let r := this m0 in
  let e := sourceExpression r in
  let hook := CallBind flags (VObj scope) (binding_view scope r) in
  exists evs,
    log (snd (_bind flags scope m)) = log m0 ++ evs /\
    Forall (fun ev =>
              match ev with
              | Enter c =>
                  c = hook \/
                  c = CallAssign flags (VObj scope) (locator r) (target r)
              | _ => True
              end) evs /\
    (In (Enter hook) evs -> hasBind e = true) /\
    (fst (_bind flags scope m) = Normal tt ->
     assigned evs = [(VObj scope, target r)] /\
     (hasBind e = true -> In (Enter hook) evs)).
Proof. exact (bind_call_facts flags scope m m0). Qed.

(** X8. On a bound binding, the first thing [$unbind] does is write a
    state with [isBound] and [isUnbinding] both set; every call into the
    expression is made under both; and every state written afterwards has
    the two bits equal, so they are cleared together. *)
Theorem unbind_state_order flags m :
  bound (this m) = true ->
  exists s1 evs,
    log (snd (_unbind flags m)) = log m ++ SetState s1 :: evs /\
    has_flag s1 LifecycleState.isBound = true /\
    has_flag s1 LifecycleState.isUnbinding = true /\
    Forall (fun '(_, s, _) => has_flag s LifecycleState.isBound = true /\
                              has_flag s LifecycleState.isUnbinding = true)
           (calls_under s1 (_scope (this m)) evs) /\
    Forall (fun s => has_flag s LifecycleState.isBound
                     = has_flag s LifecycleState.isUnbinding)
           (states_after s1 evs).
Proof.
  intros Hb. unfold bound in *. run. rewrite Hb. cbn.
  rewrite has_isBound in Hb.
  repeat case_match; simplify_eq; cbn in *; rewrite <- ?app_assoc; cbn.
  all: eexists _, _; split; [reflexivity|]; cbn.
  all: repeat first [apply Forall_cons | apply Forall_nil | split].
  all: bits; rewrite ?Hb; auto.
Qed.


(** [$unbind] clears a location that still holds the target. *)
Lemma unbind_clears_location flags scope m m' :
  bound_to scope (this m) ->
  location (sourceExpression (this m)) ->
  evaluates_to (sourceExpression (this m)) (VObj scope) (world m)
               (target (this m)) ->
  _unbind flags m = (Normal tt, m') ->
  evaluates_to (sourceExpression (this m)) (VObj scope) (world m') VNull.
Proof.
  intros [Hb Hs] L Hv H. unfold bound in *. run. rewrite Hb in H. cbn in H.
  rewrite Hs in *.
  specialize (Hv flags (locator (this m))).
  destruct (evaluate _ _ _ _ _) as [[v|x] w1] eqn:Ev; [|discriminate].
  cbn in *. injection Hv as ->.
  rewrite (proj2 (strict_eq_true _ _) eq_refl) in H.
  destruct (assign _ _ _ _ _ _) as [[v|x] w2] eqn:Ea; [|discriminate].
  pose proof (location_reads_back _ L _ _ _ _ _ _ _ Ea) as Hn.
  cbn in H. destruct (hasUnbind _); cbn in H.
  - match type of H with
    | context [unbind ?e ?f ?sc ?b ?w] =>
        pose proof (location_unbind _ L (VObj scope) VNull w f b Hn) as Hk;
        destruct (unbind e f sc b w) as [[[]|y] w3]; [|discriminate]
    end.
    injection H as <-. exact Hk.
  - injection H as <-. exact Hn.
Qed.

(** X9. On an expression that denotes a location and a binding not already
    bound to the scope, [$bind] followed by [$unbind], both completing,
    leaves the expression evaluating to [null] against that scope, the
    binding unbound and [$scope] [null]. *)
Theorem bind_then_unbind_clears flags flags' scope m m' :
  location (sourceExpression (this m)) ->
  ~ bound_to scope (this m) ->
  (_bind flags scope;; _unbind flags') m = (Normal tt, m') ->
  evaluates_to (sourceExpression (this m)) (VObj scope) (world m') VNull /\
  bound (this m') = false /\
  _scope (this m') = VNull.
Proof.
  intros L Hn H. unfold mbind at 1, M_bind in H.
  destruct (_bind flags scope m) as [[[]|x] m1] eqn:E; [|discriminate].
  destruct (bind_reads_back _ _ _ _ Hn (location_reads_back _ L) E)
    as (Ht & _ & Hv).
  pose proof (bind_normal_bound_to _ _ _ _ E) as Hb1.
  assert (He : sourceExpression (this m1) = sourceExpression (this m)).
  { pose proof (bind_same_fields flags scope m) as F.
    rewrite E in F. apply F. }
  rewrite He in Hv.
  split; [|split].
  - rewrite <- He. rewrite <- He in L, Hv.
    exact (unbind_clears_location _ _ _ _ Hb1 L Hv H).
  - exact (unbind_normal_not_bound _ _ _ H).
  - exact (proj1 (unbind_bound_normal _ _ _ (proj1 Hb1) H)).
Qed.

(** X10. After a [$bind] that ended by a throw of its bind hook or of its
    assignment, [$unbind] is a no-op: it returns normally and leaves the
    binding as the failed [$bind] left it, with [$scope] holding the new
    scope and [isBinding] set. Any later [$bind] gets past its first check
    at once, also one to the same scope. *)
Theorem unbind_after_failed_bind flags flags' scope m m0 x :
  enters flags scope m m0 ->
  bind_work_throws flags scope m0 x ->
  fst (_bind flags scope m) = Throw x /\
  _unbind flags' (snd (_bind flags scope m))
  = (Normal tt, snd (_bind flags scope m)) /\
  _scope (this (snd (_bind flags scope m))) = VObj scope /\
  has_flag (_state (this (snd (_bind flags scope m))))
           LifecycleState.isBinding = true /\
  forall flags'' scope'',
    enters flags'' scope'' (snd (_bind flags scope m))
           (snd (_bind flags scope m)).
Proof.
  intros He Ht. destruct (bind_enters _ _ _ _ He) as [E Hb].
  destruct (bind_unbound_throw _ _ _ _ Hb Ht) as (m' & Hm & Hs & Hi & Hu).
  rewrite E, Hm. cbn.
  split; [reflexivity|]. split; [now apply unbind_idle|].
  split; [exact Hs|]. split; [exact Hi|].
  intros f s. left. now split.
Qed.

Lemma assigned_app evs1 evs2 :
  assigned (evs1 ++ evs2) = assigned evs1 ++ assigned evs2.
Proof.
  induction evs1 as [|ev evs1 IH]; [reflexivity|].
  destruct ev as [| |c| |]; cbn; auto. destruct c; cbn; now rewrite ?IH.
Qed.

(** A [$unbind] that ends by a throw leaves the binding bound. *)
Lemma unbind_throw_state flags scope m x :
  bound_to scope (this m) ->
  fst (_unbind flags m) = Throw x ->
  bound_to scope (this (snd (_unbind flags m))) /\
  has_flag (_state (this (snd (_unbind flags m))))
           LifecycleState.isUnbinding = true.
Proof.
  intros [Hb Hs] H. unfold bound_to, bound in *. run. rewrite Hb in *.
  cbn in *. rewrite has_isBound in Hb.
  repeat case_match; simplify_eq; cbn in *; try discriminate.
  all: repeat split; auto; bits; auto.
Qed.

(** On a bound binding [$unbind] starts by evaluating the expression. *)
Lemma unbind_bound_starts flags m :
  bound (this m) = true ->
  exists evs,
    log (snd (_unbind flags m)) =
    log m ++ SetState (js_or (_state (this m)) LifecycleState.isUnbinding)
          :: Enter (CallEvaluate flags (_scope (this m)) (locator (this m)))
          :: evs.
Proof.
  intros Hb. unfold bound in *. run. rewrite Hb. cbn.
  repeat case_match; simplify_eq; cbn in *; rewrite <- ?app_assoc; cbn.
  all: eexists; reflexivity.
Qed.

(** X11. After a [$unbind] that ended by a throw, the binding is still
    bound to its scope and [isUnbinding] is set; [$bind] to that scope is a
    no-op and does not repair it; a second [$unbind] runs again, starting
    with the evaluation of the expression against that scope. *)
Theorem failed_unbind_stays_bound flags flags' scope m x :
  bound_to scope (this m) ->
  fst (_unbind flags m) = Throw x ->
  let m' := snd (_unbind flags m) in
  bound_to scope (this m') /\
  has_flag (_state (this m')) LifecycleState.isUnbinding = true /\
  _bind flags' scope m' = (Normal tt, m') /\
  exists s1 evs,
    log (snd (_unbind flags' m')) =
    log m' ++ SetState s1
           :: Enter (CallEvaluate flags' (VObj scope) (locator (this m)))
           :: evs.
Proof.
  intros Hb H m'. subst m'.
  destruct (unbind_throw_state _ _ _ _ Hb H) as [Hb' Hu].
  split; [exact Hb'|]. split; [exact Hu|].
  split; [now apply bind_again_idle|].
  destruct (unbind_bound_starts flags' _ (proj1 Hb')) as (evs & Hlog).
  destruct (unbind_same_fields flags m) as (_ & _ & Hl & _).
  rewrite Hl, (proj2 Hb') in Hlog. eauto.
Qed.

(** X12. When a binding bound to [S] is bound to another scope [S'] and the
    [$unbind] this starts ends by a throw, [$bind] does exactly what that
    [$unbind] did: it ends with the same throw and the binding is still
    bound to [S], not to [S']. *)
Theorem rebind_with_failing_unbind flags S S' m x :
  bound_to S (this m) ->
  S' <> S ->
  fst (_unbind flags m) = Throw x ->
  _bind flags S' m = _unbind flags m /\
  fst (_bind flags S' m) = Throw x /\
  bound_to S (this (snd (_bind flags S' m))).
Proof.
  intros [Hb Hs] Hne H.
  assert (Hs' : _scope (this m) <> VObj S') by (rewrite Hs; congruence).
  assert (E : _bind flags S' m = _unbind flags m).
  { rewrite (bind_rebind _ _ _ Hb Hs').
    destruct (_unbind flags m) as [[[]|y] m1]; [discriminate|reflexivity]. }
  rewrite E. split; [reflexivity|]. split; [exact H|].
  exact (proj1 (unbind_throw_state _ _ _ _ (conj Hb Hs) H)).
Qed.

(** X13. A [$bind] that moves a binding from scope [S] to another scope
    [S'] and completes has made one or two assignments: [null] against [S]
    if the guard of [$unbind] held, and then the target against [S']. *)
Theorem rebind_assigns flags S S' m :
  bound_to S (this m) ->
  S' <> S ->
  fst (_bind flags S' m) = Normal tt ->
  exists evs,
    log (snd (_bind flags S' m)) = log m ++ evs /\
    (assigned evs = [(VObj S', target (this m))] \/
     assigned evs = [(VObj S, VNull); (VObj S', target (this m))]).
Proof.
  intros [Hb Hs] Hne Hn.
  assert (Hs' : _scope (this m) <> VObj S') by (rewrite Hs; congruence).
  rewrite (bind_rebind _ _ _ Hb Hs') in *.
  destruct (_unbind flags m) as [[[]|x] m0] eqn:Hu; [|discriminate].
  assert (He : enters flags S' m m0) by (right; auto).
  destruct (unbind_call_facts flags m Hb) as (pre & Hpre & _ & Ha & _).
  destruct (bind_call_facts flags S' m m0 He) as (post & Hpost & _ & _ & Hk).
  rewrite (bind_rebind _ _ _ Hb Hs'), Hu in Hpost, Hk.
  rewrite Hu in Hpre. cbn in Hpre.
  destruct (Hk Hn) as [Hb' _].
  exists (pre ++ post). split; [now rewrite Hpost, Hpre, app_assoc|].
  rewrite assigned_app, Hb'.
  destruct (unbind_same_fields flags m) as (_ & Ht & _).
  rewrite Hu in Ht. cbn in Ht. rewrite Ht.
  destruct Ha as [->| ->]; [now left|right]. now rewrite Hs.
Qed.
End Further.

(** * The further properties on the sample bindings *)

Lemma methods_keep_other_bits_witness :
  3 <= 3 < 32 /\
  Z.testbit (_state (this (snd (_bind 0 S8 bound1)))) 3
  = Z.testbit (_state (this bound1)) 3.
Proof.
  assert (H : 3 <= 3 < 32) by lia.
  split; [exact H|]. exact (proj1 (methods_keep_other_bits 0 S8 bound1 3 H)).
Defined.

Lemma reachable_states_witness :
  reachable_with (fun v => v = VNull) (this bound_null) /\
  ((_state (this bound_null) = LifecycleState.isBound /\
    _scope (this bound_null) = VNull) \/
   (_state (this bound_null) = LifecycleState.none /\
    (_scope (this bound_null) = VNull \/
     _scope (this bound_null) = VUndefined))).
Proof.
  assert (H : reachable_with (fun v => v = VNull) (this bound_null)).
  { apply (reach_bind (fun v => v = VNull) Bg 0 VNull ∅ [] bound_null
             (reach_new _ _ _ _) eq_refl).
    apply (run_normal (_bind_value 0 VNull) (start Bg) tt).
    vm_compute. reflexivity. }
  split; [exact H|].
  exact (reachable_states (fun v => v = VNull) (this bound_null) H).
Defined.

Lemma throws_are_passed_on_witness :
  fst (_unbind 0 boundx) = Throw (thrown TypeError) /\
  exists evs,
    log (snd (_unbind 0 boundx)) = log boundx ++ evs /\
    last evs = Some (Threw (thrown TypeError)).
Proof.
  assert (H : fst (_unbind 0 boundx) = Throw (thrown TypeError))
    by (vm_compute; reflexivity).
  split; [exact H|].
  destruct (proj2 (throws_are_passed_on 0 S7 boundx)) as (evs & Hlog & Hx).
  exists evs. split; [exact Hlog|].
  destruct (Hx (thrown TypeError)) as [Hiff Hlast].
  apply Hlast, Hiff, H.
Defined.

Lemma unbind_calls_witness :
  bound (this boundh) = true /\
  fst (_unbind 0 boundh) = Normal tt /\
  hasUnbind (sourceExpression (this boundh)) = true /\
  exists evs,
    log (snd (_unbind 0 boundh)) = log boundh ++ evs /\
    In (Enter (CallUnbind 0 (_scope (this boundh))
                          (unbinding_view (this boundh)))) evs.
Proof.
  assert (Hb : bound (this boundh) = true) by (vm_compute; reflexivity).
  assert (Hn : fst (_unbind 0 boundh) = Normal tt) by (vm_compute; reflexivity).
  assert (Hh : hasUnbind (sourceExpression (this boundh)) = true)
    by (vm_compute; reflexivity).
  split; [exact Hb|]. split; [exact Hn|]. split; [exact Hh|].
  destruct (unbind_calls 0 boundh Hb) as (evs & Hlog & _ & _ & _ & Hk).
  exists evs. split; [exact Hlog|]. exact (Hk Hn Hh).
Defined.

Lemma bound1_enters : enters 0 S8 bound1 unbound1.
Proof.
  right. split; [vm_compute; reflexivity|]. split.
  - intros H. vm_compute in H. discriminate.
  - apply (run_normal (_unbind 0) bound1 tt). vm_compute. reflexivity.
Qed.

Lemma bind_calls_witness :
  enters 0 S8 bound1 unbound1 /\
  fst (_bind 0 S8 bound1) = Normal tt /\
  exists evs,
    log (snd (_bind 0 S8 bound1)) = log unbound1 ++ evs /\
    assigned evs = [(VObj S8, target (this unbound1))].
Proof.
  assert (Hn : fst (_bind 0 S8 bound1) = Normal tt) by (vm_compute; reflexivity).
  split; [exact bound1_enters|]. split; [exact Hn|].
  destruct (bind_calls 0 S8 bound1 unbound1 bound1_enters)
    as (evs & Hlog & _ & _ & Hk).
  exists evs. split; [exact Hlog|]. exact (proj1 (Hk Hn)).
Defined.

Lemma unbind_state_order_witness :
  bound (this bound1) = true /\
  exists s1 evs,
    log (snd (_unbind 0 bound1)) = log bound1 ++ SetState s1 :: evs /\
    has_flag s1 LifecycleState.isBound = true /\
    has_flag s1 LifecycleState.isUnbinding = true.
Proof.
  assert (Hb : bound (this bound1) = true) by (vm_compute; reflexivity).
  split; [exact Hb|].
  destruct (unbind_state_order 0 bound1 Hb) as (s1 & evs & Hlog & H1 & H2 & _).
  exists s1, evs. auto.
Defined.

Lemma bind_then_unbind_clears_witness :
  location (sourceExpression (this (start B1))) /\
  ~ bound_to S7 (this (start B1)) /\
  fst ((_bind 0 S7;; _unbind 0) (start B1)) = Normal tt /\
  evaluates_to (sourceExpression (this (start B1))) (VObj S7)
               (world (snd ((_bind 0 S7;; _unbind 0) (start B1)))) VNull.
Proof.
  assert (L : location (sourceExpression (this (start B1))))
    by apply AccessScope_location.
  assert (Hn : ~ bound_to S7 (this (start B1)))
    by (intros [H _]; discriminate).
  assert (Hr : fst ((_bind 0 S7;; _unbind 0) (start B1)) = Normal tt)
    by (vm_compute; reflexivity).
  split; [exact L|]. split; [exact Hn|]. split; [exact Hr|].
  exact (proj1 (bind_then_unbind_clears 0 0 S7 (start B1) _ L Hn
                  (run_normal (_bind 0 S7;; _unbind 0) (start B1) tt Hr))).
Defined.

Lemma unbind_after_failed_bind_witness :
  enters 0 S7 (start Br) (start Br) /\
  bind_work_throws 0 S7 (start Br) (thrown NotAssignable) /\
  _unbind 0 (snd (_bind 0 S7 (start Br)))
  = (Normal tt, snd (_bind 0 S7 (start Br))).
Proof.
  assert (He : enters 0 S7 (start Br) (start Br)) by (left; split; reflexivity).
  assert (Ht : bind_work_throws 0 S7 (start Br) (thrown NotAssignable))
    by reflexivity.
  split; [exact He|]. split; [exact Ht|].
  exact (proj1 (proj2 (unbind_after_failed_bind 0 0 S7 (start Br) (start Br)
                         _ He Ht))).
Defined.

Lemma boundx_bound_to : bound_to S7 (this boundx).
Proof. split; vm_compute; reflexivity. Qed.

Lemma boundx_unbind_throws :
  fst (_unbind 0 boundx) = Throw (thrown TypeError).
Proof. vm_compute. reflexivity. Qed.

Lemma failed_unbind_stays_bound_witness :
  bound_to S7 (this boundx) /\
  fst (_unbind 0 boundx) = Throw (thrown TypeError) /\
  bound_to S7 (this (snd (_unbind 0 boundx))) /\
  _bind 5 S7 (snd (_unbind 0 boundx)) = (Normal tt, snd (_unbind 0 boundx)).
Proof.
  split; [exact boundx_bound_to|]. split; [exact boundx_unbind_throws|].
  destruct (failed_unbind_stays_bound 0 5 S7 boundx _ boundx_bound_to
              boundx_unbind_throws) as (Hb & _ & Hn & _).
  split; [exact Hb|exact Hn].
Defined.

Lemma rebind_with_failing_unbind_witness :
  bound_to S7 (this boundx) /\ S8 <> S7 /\
  fst (_unbind 0 boundx) = Throw (thrown TypeError) /\
  _bind 0 S8 boundx = _unbind 0 boundx /\
  bound_to S7 (this (snd (_bind 0 S8 boundx))).
Proof.
  assert (Hne : S8 <> S7) by discriminate.
  split; [exact boundx_bound_to|]. split; [exact Hne|].
  split; [exact boundx_unbind_throws|].
  destruct (rebind_with_failing_unbind 0 S7 S8 boundx _ boundx_bound_to Hne
              boundx_unbind_throws) as (E & _ & Hb).
  split; [exact E|exact Hb].
Defined.

Lemma rebind_assigns_witness :
  bound_to S7 (this bound1) /\ S8 <> S7 /\
  fst (_bind 0 S8 bound1) = Normal tt /\
  exists evs,
    log (snd (_bind 0 S8 bound1)) = log bound1 ++ evs /\
    (assigned evs = [(VObj S8, target (this bound1))] \/
     assigned evs = [(VObj S7, VNull); (VObj S8, target (this bound1))]).
Proof.
  assert (Hb : bound_to S7 (this bound1)) by (split; vm_compute; reflexivity).
  assert (Hne : S8 <> S7) by discriminate.
  assert (Hn : fst (_bind 0 S8 bound1) = Normal tt) by (vm_compute; reflexivity).
  split; [exact Hb|]. split; [exact Hne|]. split; [exact Hn|].
  exact (rebind_assigns 0 S7 S8 bound1 Hb Hne Hn).
Defined.
